(** * ass_jni.c: compositing of libass image fragments onto an ARGB canvas

    A shallow embedding of the three computational pieces of
    [app/src/main/cpp/ass_jni.c]:
    - [blend_ass_image]      (lines 68-124), the source-over compositor;
    - [compute_bounding_box] (lines 129-155), the bounding-box reducer;
    - the row-by-row crop loop of [nativeRenderFrame] (lines 377-382).

    Conventions.
    - [uint8_t] and [uint32_t] values are integers in [Z]; every operation
      that C performs in an unsigned type is followed by its reduction
      ([u8], [u32]), so wrap-around is explicit.
    - [int] values are integers in [Z]. C gives a signed sum or product
      that leaves the range of [int] no defined result, and the compiled
      code wraps it: the two sums of [compute_bounding_box] and the pixel
      count of the frame buffer, which inputs the code accepts can push out
      of range, are reduced with [int32], and the theorems that need the
      exact value say so with [fits_int]. The coordinates and indices of the
      loops are exact integers: [dst_x + x] and [dst_y + y] could only wrap
      to a negative coordinate, which the guards skip like the coordinate
      past the canvas they stand for, and the index products stay in range
      on every buffer that can be allocated.
    - Unsigned division [/] of C is [Z.div]: every operand is non-negative,
      where flooring and truncating division coincide ([udiv_is_truncating]).
    - Buffers are lists; an access outside a buffer is an explicit error of
      the [result] type, so memory safety is a statement about results. *)

From Stdlib Require Import ZArith List Lia Bool.
From Stdlib Require Import Strings.Byte.
From stdpp Require Import list list_numbers.

Local Open Scope Z_scope.

(** ** Machine integers *)

Definition u8 (z : Z) : Z := z mod 2 ^ 8.
Definition u32 (z : Z) : Z := z mod 2 ^ 32.

(** A 32-bit [int] result after two's-complement wrap-around, and the
    integers that need none. *)
Definition int32 (z : Z) : Z := (z + 2 ^ 31) mod 2 ^ 32 - 2 ^ 31.
Definition fits_int (z : Z) : Prop := - 2 ^ 31 <= z < 2 ^ 31.

(** [(v >> k) & 0xFF] stored in a [uint8_t]. *)
Definition byte_at (v k : Z) : Z := u8 (Z.land (Z.shiftr v k) 255).

(** ** Results of buffer accesses *)

Inductive error : Type :=
| BitmapOutOfBounds   (* a read outside [img->bitmap] *)
| CanvasOutOfBounds   (* a read or write outside the pixel canvas *)
| CopyOutOfBounds.    (* a [memcpy] range outside its source or target *)

Inductive result (A : Type) : Type :=
| Ok (a : A)
| Err (e : error).
Arguments Ok {A} a.
Arguments Err {A} e.

Definition bind {A B : Type} (m : result A) (k : A -> result B) : result B :=
  match m with
  | Ok a => k a
  | Err e => Err e
  end.

Notation "'let*' x ':=' m 'in' k" := (bind m (fun x => k))
  (at level 10, x name, m at level 100, k at level 200).

(** A [for] loop whose body may fail: the elements of [l] are the successive
    values of the loop variable, [s] is the buffer the body updates. *)
Fixpoint for_each {A S : Type} (body : A -> S -> result S) (l : list A) (s : S)
  : result S :=
  match l with
  | [] => Ok s
  | a :: l' => let* s' := body a s in for_each body l' s'
  end.

(** ** Fragments: [ASS_Image] *)

Module Img.
Record t : Type := Make {
  w : Z;                       (* int w *)
  h : Z;                       (* int h *)
  stride : Z;                  (* int stride *)
  bitmap : list Byte.byte;     (* unsigned char *bitmap *)
  color : Z;                   (* uint32_t color, 0xRRGGBBAA *)
  dst_x : Z;                   (* int dst_x *)
  dst_y : Z                    (* int dst_y *)
}.
End Img.

(** The [next]-linked chain is the list of its nodes, in chain order. *)
Definition ASS_Image_list : Type := list Img.t.

(** [src_row[x]] with [src_row = img->bitmap + y * img->stride]. *)
Definition read_bitmap (img : Img.t) (y x : Z) : result Z :=
  let i := y * Img.stride img + x in
  if i <? 0 then Err BitmapOutOfBounds
  else match Img.bitmap img !! Z.to_nat i with
       | Some c => Ok (Z.of_N (Byte.to_N c))
       | None => Err BitmapOutOfBounds
       end.

(** ** The canvas: [canvas_w * canvas_h] pixels, row-major, 0xAARRGGBB *)

Definition in_canvas (canvas_w canvas_h dst_x dst_y : Z) : bool :=
  (0 <=? dst_x) && (dst_x <? canvas_w) && (0 <=? dst_y) && (dst_y <? canvas_h).

(** [dst_row[dst_x]] with [dst_row = pixels + dst_y * canvas_w], read. *)
Definition read_pixel (pixels : list Z) (canvas_w canvas_h dst_x dst_y : Z)
  : result Z :=
  if in_canvas canvas_w canvas_h dst_x dst_y then
    match pixels !! Z.to_nat (dst_y * canvas_w + dst_x) with
    | Some p => Ok p
    | None => Err CanvasOutOfBounds
    end
  else Err CanvasOutOfBounds.

(** [dst_row[dst_x] = v]. *)
Definition write_pixel (pixels : list Z) (canvas_w canvas_h dst_x dst_y v : Z)
  : result (list Z) :=
  if in_canvas canvas_w canvas_h dst_x dst_y
     && (Z.to_nat (dst_y * canvas_w + dst_x) <? length pixels)%nat
  then Ok (<[Z.to_nat (dst_y * canvas_w + dst_x) := v]> pixels)
  else Err CanvasOutOfBounds.

(** ** Per-pixel arithmetic of [blend_ass_image] (lines 94-120) *)

(** [(uint32_t)bitmap_alpha * (255 - a) / 255] *)
Definition final_alpha_of (bitmap_alpha a : Z) : Z :=
  u32 (u32 bitmap_alpha * u32 (255 - a)) / 255.

(** [(uint8_t)(final_alpha + dst_a * inv_alpha / 255)] with
    [inv_alpha = 255 - final_alpha] computed in [uint32_t]. *)
Definition out_alpha (final_alpha dst_a : Z) : Z :=
  let inv_alpha := u32 (255 - final_alpha) in
  u8 (u32 (final_alpha + u32 (dst_a * inv_alpha) / 255)).

(** The unsigned quotient of line 112, before it is stored:
    [(c * final_alpha + dst_c * dst_a * inv_alpha / 255) / out_a]. *)
Definition channel_quotient (c final_alpha dst_c dst_a out_a : Z) : Z :=
  let inv_alpha := u32 (255 - final_alpha) in
  u32 (u32 (c * final_alpha) + u32 (u32 (dst_c * dst_a) * inv_alpha) / 255)
  / out_a.

(** The value stored in [uint8_t out_r] (lines 109-115). *)
Definition out_channel (c final_alpha dst_c dst_a out_a : Z) : Z :=
  if out_a =? 0 then 0
  else u8 (channel_quotient c final_alpha dst_c dst_a out_a).

(** [(out_a << 24) | (out_r << 16) | (out_g << 8) | out_b] in [uint32_t]. *)
Definition pack_argb (out_a out_r out_g out_b : Z) : Z :=
  Z.lor (Z.lor (Z.lor (u32 (Z.shiftl (u32 out_a) 24))
                      (u32 (Z.shiftl (u32 out_r) 16)))
               (u32 (Z.shiftl (u32 out_g) 8)))
        (u32 out_b).

(** Lines 98-120: the pixel written over [dst_pixel] by a source of colour
    [(r, g, b)] and effective alpha [final_alpha]. *)
Definition source_over (r g b final_alpha dst_pixel : Z) : Z :=
  let dst_a := byte_at dst_pixel 24 in
  let dst_r := byte_at dst_pixel 16 in
  let dst_g := byte_at dst_pixel 8 in
  let dst_b := byte_at dst_pixel 0 in
  let out_a := out_alpha final_alpha dst_a in
  let out_r := out_channel r final_alpha dst_r dst_a out_a in
  let out_g := out_channel g final_alpha dst_g dst_a out_a in
  let out_b := out_channel b final_alpha dst_b dst_a out_a in
  pack_argb out_a out_r out_g out_b.

(** ** [blend_ass_image] (lines 68-124) *)

Section Blend.
Variables canvas_w canvas_h : Z.

(** Body of the column loop (lines 86-120) for column [x] of row [y]. *)
Definition blend_column (img : Img.t) (r g b a : Z) (y dst_y : Z)
           (x : Z) (pixels : list Z) : result (list Z) :=
  let dst_x := Img.dst_x img + x in
  if (dst_x <? 0) || (dst_x >=? canvas_w) then Ok pixels
  else
    let* bitmap_alpha := read_bitmap img y x in
    if bitmap_alpha =? 0 then Ok pixels
    else
      let final_alpha := final_alpha_of bitmap_alpha a in
      if final_alpha =? 0 then Ok pixels
      else
        let* dst_pixel := read_pixel pixels canvas_w canvas_h dst_x dst_y in
        write_pixel pixels canvas_w canvas_h dst_x dst_y
                    (source_over r g b final_alpha dst_pixel).

(** Body of the row loop (lines 79-121) for row [y]. *)
Definition blend_row (img : Img.t) (r g b a : Z)
           (y : Z) (pixels : list Z) : result (list Z) :=
  let dst_y := Img.dst_y img + y in
  if (dst_y <? 0) || (dst_y >=? canvas_h) then Ok pixels
  else for_each (blend_column img r g b a y dst_y)
                (seqZ 0 (Img.w img)) pixels.

(** Body of the chain loop (lines 71-122) for one fragment. *)
Definition blend_one (img : Img.t) (pixels : list Z) : result (list Z) :=
  let r := byte_at (Img.color img) 24 in
  let g := byte_at (Img.color img) 16 in
  let b := byte_at (Img.color img) 8 in
  let a := byte_at (Img.color img) 0 in
  for_each (blend_row img r g b a) (seqZ 0 (Img.h img)) pixels.

Definition blend_ass_image (pixels : list Z) (img_list : ASS_Image_list)
  : result (list Z) :=
  for_each blend_one img_list pixels.
End Blend.

(** ** [compute_bounding_box] (lines 129-155) *)

(** One iteration of the chain loop (lines 138-147) on the locals
    [left], [top], [right], [bottom] (written with a trailing underscore:
    [left] and [right] are constructors in Rocq). *)
Definition bbox_step (acc : Z * Z * Z * Z) (img : Img.t) : Z * Z * Z * Z :=
  let '(left_, top_, right_, bottom_) := acc in
  if (Img.w img <=? 0) || (Img.h img <=? 0) then acc
  else
    let x1 := Img.dst_x img in
    let y1 := Img.dst_y img in
    let x2 := int32 (Img.dst_x img + Img.w img) in
    let y2 := int32 (Img.dst_y img + Img.h img) in
    (if x1 <? left_ then x1 else left_,
     if y1 <? top_ then y1 else top_,
     if x2 >? right_ then x2 else right_,
     if y2 >? bottom_ then y2 else bottom_).

(** The rectangle held by the locals when the loop ends (line 148). *)
Definition bbox_loop (img_list : ASS_Image_list) (canvas_w canvas_h : Z)
  : Z * Z * Z * Z :=
  fold_left bbox_step img_list (canvas_w, canvas_h, 0, 0).

(** The four values stored through the out-pointers (lines 151-154). *)
Definition compute_bounding_box (img_list : ASS_Image_list)
           (canvas_w canvas_h : Z) : Z * Z * Z * Z :=
  let '(left_, top_, right_, bottom_) := bbox_loop img_list canvas_w canvas_h in
  (if left_ <? 0 then 0 else left_,
   if top_ <? 0 then 0 else top_,
   if right_ >? canvas_w then canvas_w else right_,
   if bottom_ >? canvas_h then canvas_h else bottom_).

(** ** The crop loop of [nativeRenderFrame] (lines 377-382) *)

(** [memcpy(dst + doff, src + soff, n * sizeof(uint32_t))] on two distinct
    buffers of pixels; the result is the new content of [dst]. *)
Definition memcpy (dst : list Z) (doff : Z) (src : list Z) (soff n : Z)
  : result (list Z) :=
  if (0 <=? doff) && (0 <=? soff) && (0 <=? n)
     && (doff + n <=? Z.of_nat (length dst))
     && (soff + n <=? Z.of_nat (length src))
  then Ok (take (Z.to_nat doff) dst
           ++ take (Z.to_nat n) (drop (Z.to_nat soff) src)
           ++ drop (Z.to_nat (doff + n)) dst)
  else Err CopyOutOfBounds.

(** The two buffers alive during the crop: the full-frame scratch buffer
    ([calloc], line 336) and the locked pixels of the cropped bitmap. *)
Record frame_buffers : Type := Buffers {
  full_pixels : list Z;
  bmp_pixels : list Z
}.

(** Body of the crop loop (lines 379-381) for row [y]. *)
Definition crop_row (frame_w left_ top_ crop_w : Z)
           (y : Z) (st : frame_buffers) : result frame_buffers :=
  let src_row := (top_ + y) * frame_w + left_ in
  let dst_row := y * crop_w in
  let* dst := memcpy (bmp_pixels st) dst_row (full_pixels st) src_row crop_w in
  Ok {| full_pixels := full_pixels st; bmp_pixels := dst |}.

Definition crop_loop (frame_w left_ top_ crop_w crop_h : Z)
           (st : frame_buffers) : result frame_buffers :=
  for_each (crop_row frame_w left_ top_ crop_w) (seqZ 0 crop_h) st.

(** ** Definitions that follow the words of the specification *)

(** The reducer of section 4.1, as the specification words it: the placed
    extents of the fragments with positive width and height are folded with
    component-wise min/max from [(canvas_w, canvas_h, 0, 0)], and the final
    rectangle is clamped. It is compared with [compute_bounding_box]. *)
Definition positive_size (img : Img.t) : bool :=
  (0 <? Img.w img) && (0 <? Img.h img).

Definition placed_extent (img : Img.t) : Z * Z * Z * Z :=
  (Img.dst_x img, Img.dst_y img,
   Img.dst_x img + Img.w img, Img.dst_y img + Img.h img).

Definition fold_extent (acc : Z * Z * Z * Z) (img : Img.t) : Z * Z * Z * Z :=
  let '(l, t, r, b) := acc in
  let '(x1, y1, x2, y2) := placed_extent img in
  (Z.min l x1, Z.min t y1, Z.max r x2, Z.max b y2).

Definition clamp_to_canvas (canvas_w canvas_h : Z) (box : Z * Z * Z * Z)
  : Z * Z * Z * Z :=
  let '(l, t, r, b) := box in
  (Z.max 0 l, Z.max 0 t, Z.min canvas_w r, Z.min canvas_h b).

Definition spec_bounding_box (img_list : ASS_Image_list)
           (canvas_w canvas_h : Z) : Z * Z * Z * Z :=
  clamp_to_canvas canvas_w canvas_h
    (fold_left fold_extent (List.filter positive_size img_list)
               (canvas_w, canvas_h, 0, 0)).

(** The sums [dst_x + w] and [dst_y + h] of the fragment fit in an [int]. *)
Definition extent_fits (img : Img.t) : Prop :=
  fits_int (Img.dst_x img + Img.w img) /\ fits_int (Img.dst_y img + Img.h img).

(** The four numbers lines 139-142 compute for a fragment, and the min/max
    step of lines 144-147 on any four numbers. *)
Definition int_extent (img : Img.t) : Z * Z * Z * Z :=
  (Img.dst_x img, Img.dst_y img,
   int32 (Img.dst_x img + Img.w img), int32 (Img.dst_y img + Img.h img)).

Definition fold_box (acc ext : Z * Z * Z * Z) : Z * Z * Z * Z :=
  let '(l, t, r, b) := acc in
  let '(x1, y1, x2, y2) := ext in
  (Z.min l x1, Z.min t y1, Z.max r x2, Z.max b y2).

(** The invariant the data model (section 3) states for bounding boxes. *)
Definition bbox_invariant (canvas_w canvas_h : Z) (box : Z * Z * Z * Z)
  : Prop :=
  let '(l, t, r, b) := box in
  (0 <= l /\ l <= r /\ r <= canvas_w) /\ (0 <= t /\ t <= b /\ b <= canvas_h).

(** Modelled from the spec: the re-placement step of the round-trip
    property of section 8, for which the source has no routine. Row [y] of
    the cropped buffer is copied onto canvas row [top + y] from column
    [left] on, with the same [memcpy] as the crop, nothing else is written. *)
Definition place_row (canvas_w left_ top_ crop_w : Z) (crop : list Z)
           (y : Z) (canvas : list Z) : result (list Z) :=
  memcpy canvas ((top_ + y) * canvas_w + left_) crop (y * crop_w) crop_w.

(** Modelled from the spec: the whole re-placement, one [place_row] per row
    of the cropped buffer. *)
Definition place_region (canvas_w left_ top_ crop_w crop_h : Z)
           (crop canvas : list Z) : result (list Z) :=
  for_each (place_row canvas_w left_ top_ crop_w crop) (seqZ 0 crop_h) canvas.

(** The alpha channel of a stored pixel. *)
Definition alpha_of (pixel : Z) : Z := byte_at pixel 24.

(** A canvas of [n] fully transparent pixels ([calloc]). *)
Definition zero_canvas (n : Z) : list Z := replicate (Z.to_nat n) 0.

(** Every bitmap read the loops of [blend_ass_image] can make on [img]
    falls inside its buffer. *)
Definition bitmap_covers (img : Img.t) : Prop :=
  forall x y, 0 <= x < Img.w img -> 0 <= y < Img.h img ->
    0 <= y * Img.stride img + x < Z.of_nat (length (Img.bitmap img)).

(** The data model's own description of a fragment buffer. *)
Definition well_formed (img : Img.t) : Prop :=
  Img.w img <= Img.stride img /\
  Img.h img * Img.stride img <= Z.of_nat (length (Img.bitmap img)).

(** [satisfies P E r]: a successful [r] carries a value in [P], a failed
    one an error in [E]. *)
Definition satisfies {S : Type} (P : S -> Prop) (E : error -> Prop)
           (r : result S) : Prop :=
  match r with
  | Ok s => P s
  | Err e => E e
  end.

(** The colour channel as section 4.2, step 10 words it, with no narrowing:
    [(src_c * src_alpha + dst_c * dst_a * inv / 255) / out_a]. *)
Definition spec_channel (src_c src_alpha dst_c dst_a out_a : Z) : Z :=
  (src_c * src_alpha + dst_c * dst_a * (255 - src_alpha) / 255) / out_a.

(** The pixel of section 4.2, steps 6-11, as the specification words it:
    [out_a = src_alpha + dst_a * inv / 255], each channel [spec_channel] (or 0
    when [out_a] is 0), the four numbers laid out as 0xAARRGGBB. *)
Definition spec_pixel (src_r src_g src_b src_alpha dst_pixel : Z) : Z :=
  let dst_a := byte_at dst_pixel 24 in
  let inv := 255 - src_alpha in
  let out_a := src_alpha + dst_a * inv / 255 in
  let channel src_c k :=
    if out_a =? 0 then 0
    else spec_channel src_c src_alpha (byte_at dst_pixel k) dst_a out_a in
  out_a * 2 ^ 24 + channel src_r 16 * 2 ^ 16 + channel src_g 8 * 2 ^ 8
  + channel src_b 0.

(** [later] is compared with [pixels] position by position: same size and no
    alpha channel lower. *)
Definition alpha_not_lower (pixels later : list Z) : Prop :=
  length later = length pixels /\
  forall i p p', pixels !! i = Some p -> later !! i = Some p' ->
    alpha_of p <= alpha_of p'.

(** Every coverage byte of the fragment's bitmap is zero. *)
Definition coverage_zero (img : Img.t) : Prop :=
  forall c, c ∈ Img.bitmap img -> c = x00%byte.

(** Two properties of the running rectangle of [compute_bounding_box]:
    it never leaves [left <= canvas_w], [0 <= right] (and likewise
    vertically), and it is strictly ordered once a fragment of positive
    size has been folded in. *)
Definition half_bounded (canvas_w canvas_h : Z) (acc : Z * Z * Z * Z) : Prop :=
  let '(l, t, r, b) := acc in
  l <= canvas_w /\ t <= canvas_h /\ 0 <= r /\ 0 <= b.

Definition strictly_ordered (acc : Z * Z * Z * Z) : Prop :=
  let '(l, t, r, b) := acc in l < r /\ t < b.

(** Every pixel of the fragment has an effective alpha strictly between
    transparent and opaque. *)
Definition semi_transparent (img : Img.t) : Prop :=
  forall c, c ∈ Img.bitmap img ->
    0 < final_alpha_of (Z.of_N (Byte.to_N c)) (byte_at (Img.color img) 0) < 255.

(** Invariants of the loops. [sized P canvas_w canvas_h] adds to [P] that
    the canvas has [canvas_w * canvas_h] pixels. *)
Definition sized (P : list Z -> Prop) (canvas_w canvas_h : Z)
           (pixels : list Z) : Prop :=
  P pixels /\ length pixels = Z.to_nat (canvas_w * canvas_h).

(** After [k] rows of the crop loop: the frame is as before and the first
    [k] rows of the bitmap are the rows [top_ ..] of the rectangle. *)
Definition cropped_rows (canvas : list Z) (frame_w left_ top_ crop_w crop_h : Z)
           (k : Z) (st : frame_buffers) : Prop :=
  full_pixels st = canvas
  /\ length (bmp_pixels st) = Z.to_nat (crop_w * crop_h)
  /\ forall x y, 0 <= x < crop_w -> 0 <= y < k ->
       bmp_pixels st !! Z.to_nat (y * crop_w + x)
       = canvas !! Z.to_nat ((top_ + y) * frame_w + left_ + x).

(** After [k] rows of the re-placement: inside the first [k] rows of the
    rectangle the pixels of [crop], zero elsewhere. *)
Definition placed_rows (frame_w frame_h left_ top_ right_ : Z) (crop : list Z)
           (k : Z) (out : list Z) : Prop :=
  length out = Z.to_nat (frame_w * frame_h)
  /\ forall x y, 0 <= x < frame_w -> 0 <= y < frame_h ->
       out !! Z.to_nat (y * frame_w + x)
       = if (left_ <=? x) && (x <? right_) && (top_ <=? y) && (y <? top_ + k)
         then crop !! Z.to_nat ((y - top_) * (right_ - left_) + (x - left_))
         else Some 0.

(** ** Concrete fragments used by the examples *)

(** One pixel at the origin, coverage 1, opaque blue: effective alpha 1. *)
Definition faint_blue : Img.t :=
  Img.Make 1 1 1 [x01%byte] 0x0000FF00 0 0.

(** One pixel at the origin, coverage 128, opaque red / opaque blue. *)
Definition half_red : Img.t :=
  Img.Make 1 1 1 [x80%byte] 0xFF000000 0 0.
Definition half_blue : Img.t :=
  Img.Make 1 1 1 [x80%byte] 0x0000FF00 0 0.

(** A 2x2 fragment at the origin whose four coverage bytes are zero. *)
Definition blank_2x2 : Img.t :=
  Img.Make 2 2 2 [x00; x00; x00; x00]%byte 0xFF000000 0 0.

(** A 3x2 fragment placed one column left of the canvas, stride 4. *)
Definition overhang : Img.t :=
  Img.Make 3 2 4 [xff; xff; xff; x00; xff; xff; xff; x00]%byte 0x00FF0000 (-1) 1.

(** A 1x1 fragment in the last column an [int] can name. *)
Definition far_right : Img.t :=
  Img.Make 1 1 1 [xff%byte] 0xFF000000 (2 ^ 31 - 1) 0.

(** A fragment of width zero, placed inside the canvas. *)
Definition zero_width : Img.t :=
  Img.Make 0 3 0 [] 0xFFFFFF00 1 1.

(** ** The compositor seen from one canvas pixel *)

(** Lines 90-120 for the bitmap byte at column [x] of row [y] of [img], as a
    function of the destination pixel [p] it lands on: [p] itself when the
    coverage byte or the effective alpha is zero, the source-over pixel
    otherwise. *)
Definition blended (img : Img.t) (x y p : Z) : Z :=
  match read_bitmap img y x with
  | Ok bitmap_alpha =>
      if bitmap_alpha =? 0 then p
      else
        let final_alpha :=
          final_alpha_of bitmap_alpha (byte_at (Img.color img) 0) in
        if final_alpha =? 0 then p
        else source_over (byte_at (Img.color img) 24)
                         (byte_at (Img.color img) 16)
                         (byte_at (Img.color img) 8) final_alpha p
  | Err _ => p
  end.

(** The canvas pixel [(X, Y)] lies in the placed extent of [img]. *)
Definition covers_pixel (img : Img.t) (X Y : Z) : bool :=
  (Img.dst_x img <=? X) && (X <? Img.dst_x img + Img.w img)
  && (Img.dst_y img <=? Y) && (Y <? Img.dst_y img + Img.h img).

(** What one fragment, and then a whole chain, does to the value [p] of the
    canvas pixel [(X, Y)]. *)
Definition blend_one_at (img : Img.t) (X Y p : Z) : Z :=
  if covers_pixel img X Y
  then blended img (X - Img.dst_x img) (Y - Img.dst_y img) p
  else p.

Definition blend_chain_at (img_list : ASS_Image_list) (X Y p : Z) : Z :=
  fold_left (fun q img => blend_one_at img X Y q) img_list p.

(** [later] is [pixels] with the pixel at each canvas coordinate [(X, Y)]
    replaced by [f X Y] of it. *)
Definition pointwise (canvas_w canvas_h : Z) (f : Z -> Z -> Z -> Z)
           (pixels later : list Z) : Prop :=
  length later = length pixels
  /\ forall X Y, 0 <= X < canvas_w -> 0 <= Y < canvas_h ->
       later !! Z.to_nat (Y * canvas_w + X)
       = f X Y <$> pixels !! Z.to_nat (Y * canvas_w + X).

(** The canvas coordinate [(X, Y)] lies in the rectangle [box]. *)
Definition in_box (box : Z * Z * Z * Z) (X Y : Z) : bool :=
  let '(l, t, r, b) := box in
  (l <=? X) && (X <? r) && (t <=? Y) && (Y <? b).

(** The rectangle [inner] lies within the rectangle [outer]. *)
Definition box_within (inner outer : Z * Z * Z * Z) : Prop :=
  let '(l, t, r, b) := inner in
  let '(l', t', r', b') := outer in
  l' <= l /\ t' <= t /\ r <= r' /\ b <= b'.

(** [half_red] moved one pixel to the right. *)
Definition half_red_right : Img.t :=
  Img.Make 1 1 1 [x80%byte] 0xFF000000 1 0.

(** A 2x2 fragment left of a canvas, with no bitmap at all. *)
Definition off_canvas : Img.t :=
  Img.Make 2 2 2 [] 0xFF000000 (-5) 0.

(** An opaque-coverage pixel with a fully transparent tint, and a coverage-1
    pixel with a tint of inverted alpha 1. *)
Definition clear_tint : Img.t :=
  Img.Make 1 1 1 [xff%byte] 0x123456FF 0 0.
Definition faint_on_faint : Img.t :=
  Img.Make 1 1 1 [x01%byte] 0xFFFFFF01 0 0.

(** The colour of a fragment as an opaque 0xAARRGGBB pixel. *)
Definition opaque_color (img : Img.t) : Z :=
  255 * 2 ^ 24 + byte_at (Img.color img) 24 * 2 ^ 16
  + byte_at (Img.color img) 16 * 2 ^ 8 + byte_at (Img.color img) 8.

(** Every coverage byte of the fragment's bitmap is 255. *)
Definition coverage_full (img : Img.t) : Prop :=
  forall c, c ∈ Img.bitmap img -> c = xff%byte.

(** A 2x1 fragment at the origin, full coverage, opaque green. *)
Definition solid_green : Img.t :=
  Img.Make 2 1 2 [xff; xff]%byte 0x00FF0000 0 0.

(** ** The JNI layer (lines 169-430) *)

(** The context [AssContext] (lines 28-34). The three libass objects are
    opaque to this file: of each pointer only whether it is [NULL] matters,
    so a handle is [true] when the pointer is set. *)
Module Ctx.
Record t : Type := Make {
  library : bool;     (* ASS_Library  *library  != NULL *)
  renderer : bool;    (* ASS_Renderer *renderer != NULL *)
  track : bool;       (* ASS_Track    *track    != NULL *)
  frame_w : Z;        (* int frame_w *)
  frame_h : Z         (* int frame_h *)
}.
End Ctx.

Inductive log_level : Type := LOGI | LOGW | LOGE.

Inductive font_provider : Type :=
| ASS_FONTPROVIDER_NONE
| ASS_FONTPROVIDER_AUTODETECT.

(** The calls a JNI method makes into libc, libass, JNI and the Android
    bitmap API, in the order it makes them. A call that can fail carries its
    outcome. Calls that neither acquire nor release anything and whose
    result the code does not test ([strlen], [memcpy], [fseek], [ftell],
    [fread], [FindClass], [Get...ID], [GetStaticObjectField]) are left out. *)
Inductive call : Type :=
| calloc_context (ok : bool)          (* calloc(1, sizeof(AssContext)) *)
| free_context                        (* free(ctx) *)
| ass_library_init (ok : bool)
| ass_library_done
| ass_set_message_cb
| ass_renderer_init (ok : bool)
| ass_renderer_done
| ass_set_fonts (provider : font_provider) (update : Z)
| ass_set_frame_size (width height : Z)
| ass_read_memory (ok : bool)
| ass_free_track
| ass_add_font
| ass_render_frame
| GetStringUTFChars (ok : bool)
| ReleaseStringUTFChars
| malloc (ok : bool)                  (* malloc of a byte buffer *)
| free                                (* free of that buffer *)
| fopen (ok : bool)
| fclose
| calloc_pixels (ok : bool)           (* calloc(frame_w * frame_h, 4) *)
| free_pixels                         (* free(full_pixels) *)
| createBitmap (ok : bool)
| AndroidBitmap_lockPixels (ok : bool)
| AndroidBitmap_unlockPixels
| SetIntArrayRegion (rect : Z * Z * Z * Z)
| log (level : log_level).

(** [nativeInit] (lines 169-199). The three outcomes are those of [calloc],
    [ass_library_init] and [ass_renderer_init]; the result is the context
    behind the returned [jlong], [None] for 0. *)
Definition nativeInit (calloc_ok library_ok renderer_ok : bool)
  : option Ctx.t * list call :=
  if negb calloc_ok then
    (None, [calloc_context false; log LOGE])
  else if negb library_ok then
    (None, [calloc_context true; ass_library_init false; log LOGE;
            free_context])
  else if negb renderer_ok then
    (None, [calloc_context true; ass_library_init true; ass_set_message_cb;
            ass_renderer_init false; log LOGE; ass_library_done;
            free_context])
  else
    (Some (Ctx.Make true true false 0 0),
     [calloc_context true; ass_library_init true; ass_set_message_cb;
      ass_renderer_init true; ass_set_fonts ASS_FONTPROVIDER_NONE 0;
      log LOGI]).

(** [nativeSetFrameSize] (lines 204-213). [ptr] is the context behind the
    [jlong], [None] for 0; the result is the context after the call. *)
Definition nativeSetFrameSize (ptr : option Ctx.t) (width height : Z)
  : option Ctx.t * list call :=
  match ptr with
  | None => (None, [])
  | Some ctx =>
      if negb (Ctx.renderer ctx) then (Some ctx, [])
      else
        (Some (Ctx.Make (Ctx.library ctx) (Ctx.renderer ctx) (Ctx.track ctx)
                        width height),
         [ass_set_frame_size width height; log LOGI])
  end.

(** [nativeLoadTrack] (lines 218-257). The outcomes are those of
    [GetStringUTFChars], [malloc] and [ass_read_memory]. *)
Definition nativeLoadTrack (ptr : option Ctx.t)
           (content_ok buf_ok track_ok : bool)
  : bool * option Ctx.t * list call :=
  match ptr with
  | None => (false, None, [])
  | Some ctx =>
      if negb (Ctx.library ctx) then (false, Some ctx, [])
      else
        let freed := if Ctx.track ctx then [ass_free_track] else [] in
        let with_track tr :=
          Ctx.Make (Ctx.library ctx) (Ctx.renderer ctx) tr
                   (Ctx.frame_w ctx) (Ctx.frame_h ctx) in
        if negb content_ok then
          (false, Some (with_track false),
           freed ++ [GetStringUTFChars false; log LOGE])
        else if negb buf_ok then
          (false, Some (with_track false),
           freed ++ [GetStringUTFChars true; malloc false;
                     ReleaseStringUTFChars; log LOGE])
        else if negb track_ok then
          (false, Some (with_track false),
           freed ++ [GetStringUTFChars true; malloc true;
                     ass_read_memory false; free; ReleaseStringUTFChars;
                     log LOGE])
        else
          (true, Some (with_track true),
           freed ++ [GetStringUTFChars true; malloc true;
                     ass_read_memory true; free; ReleaseStringUTFChars;
                     log LOGI])
  end.

(** [nativeAddFont] (lines 262-304). [path_ok] is the outcome of
    [GetStringUTFChars] on [fontPath], which the code does not test: the
    pointer goes to [fopen] and to [ReleaseStringUTFChars] as it is.
    [name_given] is [fontName != NULL], the other outcomes are those of
    [GetStringUTFChars] on [fontName], of [fopen] and of [malloc]. The
    context is not modified. *)
Definition nativeAddFont (ptr : option Ctx.t)
           (path_ok name_given name_ok file_ok data_ok : bool) : list call :=
  match ptr with
  | None => []
  | Some ctx =>
      if negb (Ctx.library ctx) then []
      else
        let name := name_given && name_ok in
        let get_name :=
          if name_given then [GetStringUTFChars name_ok] else [] in
        let release_name := if name then [ReleaseStringUTFChars] else [] in
        [GetStringUTFChars path_ok] ++ get_name ++
        (if negb file_ok then
           [fopen false; log LOGW; ReleaseStringUTFChars] ++ release_name
         else if negb data_ok then
           [fopen true; malloc false; fclose; ReleaseStringUTFChars]
           ++ release_name
         else
           [fopen true; malloc true; fclose; ass_add_font; free; log LOGI;
            ReleaseStringUTFChars] ++ release_name
           ++ [ass_set_fonts ASS_FONTPROVIDER_AUTODETECT 1])
  end.

(** What [nativeRenderFrame] gets from outside on one call. *)
Record render_env : Type := RenderEnv {
  rendered : ASS_Image_list;   (* chain of ass_render_frame, [] for NULL *)
  pixels_ok : bool;            (* calloc of the full frame succeeds *)
  bitmap : option (list Z);    (* pixel store of the Bitmap of createBitmap,
                                  None when it returns null *)
  lock_ok : bool;              (* AndroidBitmap_lockPixels returns 0 *)
  outRect : bool               (* outRect != NULL *)
}.

(** [nativeRenderFrame] (lines 314-394). The result is the pixel store of
    the returned Bitmap, [None] for [NULL], with the calls made; the
    rectangle written to [outRect] is the argument of [SetIntArrayRegion].
    The frame buffer has [frame_w * frame_h] pixels as an [int] product
    (line 336): it wraps, a negative count is a size no [calloc] grants, and
    on a count that wrapped to a smaller one the compositor runs on a buffer
    too short for the frame, where its first access past the end is an
    error. *)
Definition nativeRenderFrame (ptr : option Ctx.t) (env : render_env)
  : result (option (list Z) * list call) :=
  match ptr with
  | None => Ok (None, [])
  | Some ctx =>
      if negb (Ctx.renderer ctx) || negb (Ctx.track ctx) then Ok (None, [])
      else if (Ctx.frame_w ctx <=? 0) || (Ctx.frame_h ctx <=? 0)
      then Ok (None, [])
      else
        match rendered env with
        | [] => Ok (None, [ass_render_frame])
        | _ :: _ =>
            let '(left_, top_, right_, bottom_) :=
              compute_bounding_box (rendered env)
                                   (Ctx.frame_w ctx) (Ctx.frame_h ctx) in
            let crop_w := right_ - left_ in
            let crop_h := bottom_ - top_ in
            let pixel_count := int32 (Ctx.frame_w ctx * Ctx.frame_h ctx) in
            if (crop_w <=? 0) || (crop_h <=? 0)
            then Ok (None, [ass_render_frame])
            else if negb (pixels_ok env) || (pixel_count <? 0)
            then Ok (None, [ass_render_frame; calloc_pixels false; log LOGE])
            else
              let* full :=
                blend_ass_image (Ctx.frame_w ctx) (Ctx.frame_h ctx)
                  (zero_canvas pixel_count) (rendered env) in
              (match bitmap env with
               | None =>
                   Ok (None, [ass_render_frame; calloc_pixels true;
                              createBitmap false; free_pixels; log LOGE])
               | Some bmp =>
                   if negb (lock_ok env)
                   then Ok (None, [ass_render_frame; calloc_pixels true;
                                   createBitmap true;
                                   AndroidBitmap_lockPixels false;
                                   free_pixels; log LOGE])
                   else
                     let* st :=
                       crop_loop (Ctx.frame_w ctx) left_ top_ crop_w crop_h
                                 (Buffers full bmp) in
                     Ok (Some (bmp_pixels st),
                         [ass_render_frame; calloc_pixels true;
                          createBitmap true; AndroidBitmap_lockPixels true;
                          AndroidBitmap_unlockPixels; free_pixels]
                         ++ (if outRect env
                             then [SetIntArrayRegion
                                     (left_, top_, right_, bottom_)]
                             else []))
               end)
        end
  end.

(** [nativeHasChange] (lines 399-407); [change] is what [ass_render_frame]
    stores through its last argument. *)
Definition nativeHasChange (ptr : option Ctx.t) (change : Z)
  : bool * list call :=
  match ptr with
  | None => (false, [])
  | Some ctx =>
      if negb (Ctx.renderer ctx) || negb (Ctx.track ctx) then (false, [])
      else (negb (change =? 0), [ass_render_frame])
  end.

(** [nativeDestroy] (lines 412-430): the calls made; afterwards the context
    no longer exists. *)
Definition nativeDestroy (ptr : option Ctx.t) : list call :=
  match ptr with
  | None => []
  | Some ctx =>
      (if Ctx.track ctx then [ass_free_track] else [])
      ++ (if Ctx.renderer ctx then [ass_renderer_done] else [])
      ++ (if Ctx.library ctx then [ass_library_done] else [])
      ++ [free_context; log LOGI]
  end.

(** ** Resources held across the JNI calls *)

(** What the calls acquire and release: the context block, the three libass
    objects, JNI string characters, byte buffers, files, the full-frame
    pixel buffer and the lock on the Bitmap pixels. *)
Inductive resource : Type :=
| RContext | RLibrary | RRenderer | RTrack
| RString | RBuffer | RFile | RPixels | RLock.

(** [Some (r, true)]: the call acquires one [r]; [Some (r, false)]: it
    releases one. A failed acquisition acquires nothing. *)
Definition effect (c : call) : option (resource * bool) :=
  match c with
  | calloc_context true => Some (RContext, true)
  | free_context => Some (RContext, false)
  | ass_library_init true => Some (RLibrary, true)
  | ass_library_done => Some (RLibrary, false)
  | ass_renderer_init true => Some (RRenderer, true)
  | ass_renderer_done => Some (RRenderer, false)
  | ass_read_memory true => Some (RTrack, true)
  | ass_free_track => Some (RTrack, false)
  | GetStringUTFChars true => Some (RString, true)
  | ReleaseStringUTFChars => Some (RString, false)
  | malloc true => Some (RBuffer, true)
  | free => Some (RBuffer, false)
  | fopen true => Some (RFile, true)
  | fclose => Some (RFile, false)
  | calloc_pixels true => Some (RPixels, true)
  | free_pixels => Some (RPixels, false)
  | AndroidBitmap_lockPixels true => Some (RLock, true)
  | AndroidBitmap_unlockPixels => Some (RLock, false)
  | _ => None
  end.

Definition resource_eqb (r s : resource) : bool :=
  match r, s with
  | RContext, RContext | RLibrary, RLibrary | RRenderer, RRenderer
  | RTrack, RTrack | RString, RString | RBuffer, RBuffer | RFile, RFile
  | RPixels, RPixels | RLock, RLock => true
  | _, _ => false
  end.

(** [held_after r n calls]: starting with [n] objects of kind [r] alive,
    the number alive after [calls]; [None] when some call releases an [r]
    while none is alive. *)
Fixpoint held_after (r : resource) (n : nat) (calls : list call) : option nat :=
  match calls with
  | [] => Some n
  | c :: calls' =>
      match effect c with
      | Some (s, acquire) =>
          if resource_eqb r s then
            if acquire then held_after r (S n) calls'
            else match n with
                 | O => None
                 | S m => held_after r m calls'
                 end
          else held_after r n calls'
      | None => held_after r n calls'
      end
  end.

(** The objects a context stands for: its own block and the libass objects
    its fields point to. *)
Definition held (ptr : option Ctx.t) (r : resource) : nat :=
  match ptr with
  | None => 0
  | Some ctx =>
      match r with
      | RContext => 1
      | RLibrary => if Ctx.library ctx then 1 else 0
      | RRenderer => if Ctx.renderer ctx then 1 else 0
      | RTrack => if Ctx.track ctx then 1 else 0
      | _ => 0
      end
  end.

(** The methods a client calls between [nativeInit] and [nativeDestroy],
    each with the outcomes of the external calls it makes. *)
Inductive method : Type :=
| SetFrameSize (width height : Z)
| LoadTrack (content_ok buf_ok track_ok : bool)
| AddFont (path_ok name_given name_ok file_ok data_ok : bool)
| RenderFrame (env : render_env)
| HasChange (change : Z).

(** One method call on the context [ptr]: the context afterwards and the
    calls made. *)
Definition invoke (ptr : option Ctx.t) (m : method)
  : result (option Ctx.t * list call) :=
  match m with
  | SetFrameSize width height => Ok (nativeSetFrameSize ptr width height)
  | LoadTrack content_ok buf_ok track_ok =>
      let '(_, ptr', calls) := nativeLoadTrack ptr content_ok buf_ok track_ok in
      Ok (ptr', calls)
  | AddFont path_ok name_given name_ok file_ok data_ok =>
      Ok (ptr, nativeAddFont ptr path_ok name_given name_ok file_ok data_ok)
  | RenderFrame env =>
      let* r := nativeRenderFrame ptr env in Ok (ptr, snd r)
  | HasChange change => Ok (ptr, snd (nativeHasChange ptr change))
  end.

(** The call obtains the characters of every string it passes on unchecked:
    [GetStringUTFChars] on the [fontPath] of [nativeAddFont] succeeds. *)
Definition path_obtained (m : method) : bool :=
  match m with
  | AddFont path_ok _ _ _ _ => path_ok
  | _ => true
  end.

(** A sequence of method calls on the same context. *)
Fixpoint session (ptr : option Ctx.t) (ms : list method)
  : result (option Ctx.t * list call) :=
  match ms with
  | [] => Ok (ptr, [])
  | m :: ms' =>
      let* step := invoke ptr m in
      let* rest := session (fst step) ms' in
      Ok (fst rest, snd step ++ snd rest)
  end.

(** A context ready to render on a 2x1 frame, and one call's surroundings:
    the chain [half_red_right], every allocation granted, [outRect] given. *)
Definition ready_2x1 : Ctx.t := Ctx.Make true true true 2 1.
Definition grant_all : render_env :=
  RenderEnv [half_red_right] true (Some [0]) true true.

(** Whether the last [LoadTrack] of a sequence of calls obtained all it
    needed, and the arguments of its last [SetFrameSize]; [acc] when there
    is none. *)
Fixpoint last_load (acc : bool) (ms : list method) : bool :=
  match ms with
  | [] => acc
  | LoadTrack content_ok buf_ok track_ok :: ms' =>
      last_load (content_ok && buf_ok && track_ok) ms'
  | _ :: ms' => last_load acc ms'
  end.

Fixpoint last_size (acc : Z * Z) (ms : list method) : Z * Z :=
  match ms with
  | [] => acc
  | SetFrameSize width height :: ms' => last_size (width, height) ms'
  | _ :: ms' => last_size acc ms'
  end.

(** A session on a 2x1 frame: size, load, font, render, change, a reload
    that fails, render again. *)
Definition busy_session : list method :=
  [SetFrameSize 2 1; LoadTrack true true true;
   AddFont true true true true true;
   RenderFrame grant_all; HasChange 1; LoadTrack true false true;
   RenderFrame grant_all].

Definition busy_session_end : option Ctx.t :=
  Some (Ctx.Make true true false 2 1).

Definition busy_session_calls : list call :=
  Eval vm_compute in
    match session (fst (nativeInit true true true)) busy_session with
    | Ok (_, calls) => calls
    | Err _ => []
    end.

(** The fragment draws on the canvas pixel [(X, Y)]: it covers it and the
    bitmap byte that lands on it has a non-zero effective alpha. *)
Definition contributes (img : Img.t) (X Y : Z) : bool :=
  covers_pixel img X Y
  && match read_bitmap img (Y - Img.dst_y img) (X - Img.dst_x img) with
     | Ok bitmap_alpha =>
         negb (final_alpha_of bitmap_alpha (byte_at (Img.color img) 0) =? 0)
     | Err _ => false
     end.

(** ** Machine arithmetic *)

Lemma u32_small z : 0 <= z < 2 ^ 32 -> u32 z = z.
Proof. intros Hz. unfold u32. now apply Z.mod_small. Qed.

Lemma u8_small z : 0 <= z < 2 ^ 8 -> u8 z = z.
Proof. intros Hz. unfold u8. now apply Z.mod_small. Qed.

Lemma u8_range z : 0 <= u8 z <= 255.
Proof. unfold u8. pose proof (Z.mod_pos_bound z (2 ^ 8)). lia. Qed.

Lemma u32_range z : 0 <= u32 z < 2 ^ 32.
Proof. unfold u32. apply Z.mod_pos_bound. lia. Qed.

(** On unsigned operands the flooring [Z.div] is C's truncating division. *)
Lemma udiv_is_truncating a b : 0 <= a -> 0 < b -> a / b = Z.quot a b.
Proof. intros Ha Hb. symmetry. apply Z.quot_div_nonneg; lia. Qed.

Lemma byte_at_range v k : 0 <= byte_at v k <= 255.
Proof. apply u8_range. Qed.

Lemma alpha_of_range p : 0 <= alpha_of p <= 255.
Proof. apply byte_at_range. Qed.

(** The quotient [d * (255 - s) / 255] lies between [d - s] and [255 - s]. *)
Lemma scaled_alpha_bounds s d :
  0 <= s <= 255 -> 0 <= d <= 255 ->
  d - s <= d * (255 - s) / 255 <= 255 - s /\ 0 <= d * (255 - s) / 255.
Proof.
  intros Hs Hd.
  assert (Hlo : 255 * (d - s) <= d * (255 - s)) by nia.
  assert (Hhi : d * (255 - s) <= 255 * (255 - s)) by nia.
  assert (H0 : 0 <= d * (255 - s)) by nia.
  repeat split.
  - apply Z.div_le_lower_bound; lia.
  - apply Z.div_le_upper_bound; lia.
  - apply Z.div_pos; lia.
Qed.

(** No step of [out_alpha] wraps on byte inputs. *)
Lemma out_alpha_exact s d :
  0 <= s <= 255 -> 0 <= d <= 255 ->
  out_alpha s d = s + d * (255 - s) / 255.
Proof.
  intros Hs Hd. unfold out_alpha.
  destruct (scaled_alpha_bounds s d Hs Hd) as [[Hlo Hhi] H0].
  rewrite (u32_small (255 - s)) by lia.
  rewrite (u32_small (d * (255 - s))) by nia.
  rewrite u32_small by lia.
  apply u8_small. lia.
Qed.

(** ** Loops *)

Lemma for_each_app {A S : Type} (body : A -> S -> result S) l1 l2 s :
  for_each body (l1 ++ l2) s
  = let* s' := for_each body l1 s in for_each body l2 s'.
Proof.
  revert s. induction l1 as [|a l1 IH]; intros s; simpl; [reflexivity|].
  destruct (body a s); simpl; auto.
Qed.

(** A loop whose every iteration leaves the buffer alone leaves it alone. *)
Lemma for_each_unchanged {A S : Type} (body : A -> S -> result S) l s :
  (forall a, a ∈ l -> body a s = Ok s) -> for_each body l s = Ok s.
Proof.
  induction l as [|a l IH]; intros Hbody; simpl; [reflexivity|].
  rewrite Hbody by (apply elem_of_cons; auto). simpl.
  apply IH. intros b Hb. apply Hbody, elem_of_cons. auto.
Qed.

(** Invariant rule: [P] is kept by successful iterations, and failures stay
    within [E]. *)
Lemma for_each_satisfies {A S : Type} (P : S -> Prop) (E : error -> Prop)
      (body : A -> S -> result S) l :
  (forall a s, a ∈ l -> P s -> satisfies P E (body a s)) ->
  forall s, P s -> satisfies P E (for_each body l s).
Proof.
  induction l as [|a l IH]; intros Hbody s Hs; simpl; [exact Hs|].
  assert (Ha : satisfies P E (body a s))
    by (apply Hbody; [apply elem_of_cons; auto | exact Hs]).
  destruct (body a s) as [s'|e]; simpl in *; [|exact Ha].
  apply IH; [|exact Ha].
  intros b t Hb Ht. apply Hbody; [apply elem_of_cons; auto | exact Ht].
Qed.

Lemma satisfies_no_error {S : Type} (P : S -> Prop) (r : result S) :
  satisfies P (fun _ => False) r -> exists s, r = Ok s /\ P s.
Proof. destruct r as [s|e]; simpl; [eauto|tauto]. Qed.

(** ** Packed pixels *)

Lemma land_255 z : Z.land z 255 = z mod 2 ^ 8.
Proof. change 255 with (Z.ones 8). apply Z.land_ones. lia. Qed.

Lemma byte_at_mod v k : 0 <= k -> byte_at v k = (v / 2 ^ k) mod 2 ^ 8.
Proof.
  intros Hk. unfold byte_at, u8.
  rewrite land_255, Z.shiftr_div_pow2 by assumption.
  apply Z.mod_mod. lia.
Qed.

(** An or of two numbers with no common bit is their sum. *)
Lemma lor_shifted_low hi lo n :
  0 <= n -> 0 <= lo < 2 ^ n -> Z.lor (hi * 2 ^ n) lo = hi * 2 ^ n + lo.
Proof.
  intros Hn Hlo.
  assert (Hland : Z.land (hi * 2 ^ n) lo = 0).
  { rewrite <- Z.shiftl_mul_pow2 by assumption.
    apply Z.bits_inj'. intros i Hi. rewrite Z.land_spec, Z.bits_0.
    destruct (Z.lt_ge_cases i n) as [Hlt|Hge].
    - rewrite Z.shiftl_spec_low by assumption. reflexivity.
    - destruct (Z.eq_dec lo 0) as [->|Hne].
      + rewrite Z.bits_0. apply andb_false_r.
      + rewrite (Z.bits_above_log2 lo i); [apply andb_false_r| lia |].
        apply Z.lt_le_trans with n; [|assumption].
        apply Z.log2_lt_pow2; lia. }
  rewrite <- Z.lxor_lor by assumption.
  symmetry. apply Z.add_nocarry_lxor. assumption.
Qed.

(** Four bytes packed by shifts and ors are the base-256 number they spell. *)
Lemma pack_argb_sum a r g b :
  0 <= a <= 255 -> 0 <= r <= 255 -> 0 <= g <= 255 -> 0 <= b <= 255 ->
  pack_argb a r g b = a * 2 ^ 24 + r * 2 ^ 16 + g * 2 ^ 8 + b.
Proof.
  intros Ha Hr Hg Hb. unfold pack_argb.
  rewrite !(u32_small a), !(u32_small r), !(u32_small g), !(u32_small b) by lia.
  rewrite !Z.shiftl_mul_pow2 by lia.
  rewrite !u32_small by lia.
  rewrite (lor_shifted_low a (r * 2 ^ 16) 24) by lia.
  replace (a * 2 ^ 24 + r * 2 ^ 16) with ((a * 2 ^ 8 + r) * 2 ^ 16) by lia.
  rewrite (lor_shifted_low (a * 2 ^ 8 + r) (g * 2 ^ 8) 16) by lia.
  replace ((a * 2 ^ 8 + r) * 2 ^ 16 + g * 2 ^ 8)
    with ((a * 2 ^ 16 + r * 2 ^ 8 + g) * 2 ^ 8) by lia.
  rewrite (lor_shifted_low (a * 2 ^ 16 + r * 2 ^ 8 + g) b 8) by lia.
  lia.
Qed.

Lemma alpha_of_pack_argb a r g b :
  0 <= a <= 255 -> 0 <= r <= 255 -> 0 <= g <= 255 -> 0 <= b <= 255 ->
  alpha_of (pack_argb a r g b) = a.
Proof.
  intros Ha Hr Hg Hb. unfold alpha_of.
  rewrite byte_at_mod, pack_argb_sum by lia.
  replace (a * 2 ^ 24 + r * 2 ^ 16 + g * 2 ^ 8 + b)
    with (a * 2 ^ 24 + (r * 2 ^ 16 + g * 2 ^ 8 + b)) by lia.
  rewrite Z.div_add_l by lia.
  rewrite (Z.div_small (r * 2 ^ 16 + g * 2 ^ 8 + b)) by lia.
  rewrite Z.add_0_r. apply Z.mod_small. lia.
Qed.

Lemma out_channel_range c fa dc da oa : 0 <= out_channel c fa dc da oa <= 255.
Proof.
  unfold out_channel. destruct (oa =? 0); [lia | apply u8_range].
Qed.

Lemma out_alpha_range fa da : 0 <= out_alpha fa da <= 255.
Proof. unfold out_alpha. apply u8_range. Qed.

(** The alpha channel of the pixel [source_over] writes is [out_alpha]. *)
Lemma alpha_of_source_over r g b fa p :
  alpha_of (source_over r g b fa p) = out_alpha fa (alpha_of p).
Proof.
  unfold source_over. fold (alpha_of p).
  apply alpha_of_pack_argb;
    auto using out_alpha_range, out_channel_range.
Qed.

(** Source-over never lowers the alpha channel of the pixel it rewrites. *)
Lemma source_over_alpha_not_lower r g b fa p :
  0 <= fa <= 255 -> alpha_of p <= alpha_of (source_over r g b fa p).
Proof.
  intros Hfa. rewrite alpha_of_source_over.
  pose proof (alpha_of_range p) as Hp.
  rewrite out_alpha_exact by assumption.
  destruct (scaled_alpha_bounds fa (alpha_of p) Hfa Hp) as [[Hlo _] _]. lia.
Qed.

(** The effective alpha of a coverage byte under a tint is a byte. *)
Lemma final_alpha_of_range c a :
  0 <= c <= 255 -> 0 <= a <= 255 -> 0 <= final_alpha_of c a <= 255.
Proof.
  intros Hc Ha. unfold final_alpha_of.
  rewrite (u32_small c), (u32_small (255 - a)) by lia.
  rewrite u32_small by nia.
  split.
  - apply Z.div_pos; nia.
  - apply Z.div_le_upper_bound; nia.
Qed.

Lemma final_alpha_of_exact c a :
  0 <= c <= 255 -> 0 <= a <= 255 -> final_alpha_of c a = c * (255 - a) / 255.
Proof.
  intros Hc Ha. unfold final_alpha_of.
  rewrite (u32_small c), (u32_small (255 - a)) by lia.
  rewrite u32_small by nia. reflexivity.
Qed.

Lemma byte_to_Z_range (c : Byte.byte) : 0 <= Z.of_N (Byte.to_N c) <= 255.
Proof. pose proof (Byte.to_N_bounded c). lia. Qed.

(** ** Buffer accesses *)

Lemma canvas_index_in_range canvas_w canvas_h dst_x dst_y :
  0 <= dst_x < canvas_w -> 0 <= dst_y < canvas_h ->
  (Z.to_nat (dst_y * canvas_w + dst_x) < Z.to_nat (canvas_w * canvas_h))%nat.
Proof. intros Hx Hy. apply Z2Nat.inj_lt; nia. Qed.

Lemma in_canvas_true canvas_w canvas_h dst_x dst_y :
  in_canvas canvas_w canvas_h dst_x dst_y = true
  <-> (0 <= dst_x < canvas_w /\ 0 <= dst_y < canvas_h).
Proof. unfold in_canvas. rewrite !andb_true_iff. lia. Qed.

(** A checked canvas access succeeds exactly on the coordinates of the
    canvas rectangle (for a canvas of [canvas_w * canvas_h] pixels). *)
Lemma read_pixel_ok_iff pixels canvas_w canvas_h dst_x dst_y :
  length pixels = Z.to_nat (canvas_w * canvas_h) ->
  (exists p, read_pixel pixels canvas_w canvas_h dst_x dst_y = Ok p)
  <-> (0 <= dst_x < canvas_w /\ 0 <= dst_y < canvas_h).
Proof.
  intros Hlen. unfold read_pixel. rewrite <- in_canvas_true.
  destruct (in_canvas canvas_w canvas_h dst_x dst_y) eqn:Hin.
  - apply in_canvas_true in Hin as [Hx Hy].
    pose proof (canvas_index_in_range _ _ _ _ Hx Hy) as Hi.
    rewrite <- Hlen in Hi. apply lookup_lt_is_Some_2 in Hi as [p Hp].
    rewrite Hp. split; eauto.
  - split; [intros [p Hp]; discriminate | discriminate].
Qed.

Lemma write_pixel_ok_iff pixels canvas_w canvas_h dst_x dst_y v :
  length pixels = Z.to_nat (canvas_w * canvas_h) ->
  (exists pixels', write_pixel pixels canvas_w canvas_h dst_x dst_y v = Ok pixels')
  <-> (0 <= dst_x < canvas_w /\ 0 <= dst_y < canvas_h).
Proof.
  intros Hlen. unfold write_pixel. rewrite <- in_canvas_true.
  destruct (in_canvas canvas_w canvas_h dst_x dst_y) eqn:Hin; simpl.
  - apply in_canvas_true in Hin as [Hx Hy].
    pose proof (canvas_index_in_range _ _ _ _ Hx Hy) as Hi.
    rewrite <- Hlen in Hi. apply Nat.ltb_lt in Hi. rewrite Hi.
    split; eauto.
  - split; [intros [p Hp]; discriminate | discriminate].
Qed.

Lemma read_bitmap_range img y x c :
  read_bitmap img y x = Ok c -> 0 <= c <= 255.
Proof.
  unfold read_bitmap. destruct (_ <? 0); [discriminate|].
  destruct (_ !! _) as [k|]; [|discriminate].
  intros [= <-]. apply byte_to_Z_range.
Qed.

Lemma read_bitmap_error img y x e :
  read_bitmap img y x = Err e -> e = BitmapOutOfBounds.
Proof.
  unfold read_bitmap. destruct (_ <? 0); [congruence|].
  destruct (_ !! _) as [k|]; congruence.
Qed.

Lemma read_bitmap_covered img y x :
  bitmap_covers img -> 0 <= x < Img.w img -> 0 <= y < Img.h img ->
  exists k, Img.bitmap img !! Z.to_nat (y * Img.stride img + x) = Some k
            /\ read_bitmap img y x = Ok (Z.of_N (Byte.to_N k)).
Proof.
  intros Hcov Hx Hy. specialize (Hcov x y Hx Hy). unfold read_bitmap.
  destruct (Z.ltb_spec (y * Img.stride img + x) 0) as [Hneg|_]; [lia|].
  assert (Hi : (Z.to_nat (y * Img.stride img + x) < length (Img.bitmap img))%nat)
    by lia.
  apply lookup_lt_is_Some_2 in Hi as [k Hk]. rewrite Hk. eauto.
Qed.

Lemma well_formed_covers img : well_formed img -> bitmap_covers img.
Proof.
  intros [Hw Hh] x y Hx Hy. split; [nia|].
  apply Z.lt_le_trans with (Img.h img * Img.stride img); [nia|assumption].
Qed.

(** ** The compositor, one iteration at a time *)

Section BlendFacts.
Context (canvas_w canvas_h : Z).

(** What one iteration of the column loop can do to a canvas of the right
    size, on a row that passed the row guard. *)
Lemma blend_column_outcome img r g b a y dst_y x pixels :
  0 <= a <= 255 -> 0 <= dst_y < canvas_h ->
  length pixels = Z.to_nat (canvas_w * canvas_h) ->
  let res := blend_column canvas_w canvas_h img r g b a y dst_y x pixels in
  res = Ok pixels
  \/ (res = Err BitmapOutOfBounds
      /\ read_bitmap img y x = Err BitmapOutOfBounds)
  \/ exists p fa,
       0 <= Img.dst_x img + x < canvas_w /\
       pixels !! Z.to_nat (dst_y * canvas_w + (Img.dst_x img + x)) = Some p /\
       1 <= fa <= 255 /\
       res = Ok (<[Z.to_nat (dst_y * canvas_w + (Img.dst_x img + x))
                   := source_over r g b fa p]> pixels).
Proof.
  intros Ha Hy Hlen res. subst res. unfold blend_column.
  destruct ((Img.dst_x img + x <? 0) || (Img.dst_x img + x >=? canvas_w))
    eqn:Hin; [auto|].
  apply orb_false_iff in Hin as [Hx0 Hx1].
  assert (Hx : 0 <= Img.dst_x img + x < canvas_w) by lia.
  destruct (read_bitmap img y x) as [c|e] eqn:Hread; simpl.
  2:{ right; left. apply read_bitmap_error in Hread as ->. auto. }
  apply read_bitmap_range in Hread as Hc.
  destruct (c =? 0); [auto|].
  pose proof (final_alpha_of_range c a Hc Ha) as Hfa.
  destruct (Z.eqb_spec (final_alpha_of c a) 0) as [|Hne]; [auto|].
  right; right.
  pose proof (canvas_index_in_range _ _ _ _ Hx Hy) as Hi. rewrite <- Hlen in Hi.
  unfold read_pixel, write_pixel.
  assert (Hc' : in_canvas canvas_w canvas_h (Img.dst_x img + x) dst_y = true)
    by (apply in_canvas_true; lia).
  rewrite Hc'. apply lookup_lt_is_Some_2 in Hi as Hp. destruct Hp as [p Hp].
  rewrite Hp. simpl. apply Nat.ltb_lt in Hi. rewrite Hi. simpl.
  exists p, (final_alpha_of c a). repeat split; auto; lia.
Qed.

Section Invariant.
(** [P] is a property of canvases kept by every source-over update of a
    pixel, and [E] the errors one tolerates. *)
Variable P : list Z -> Prop.
Variable E : error -> Prop.
Hypothesis P_update : forall pixels i p r g b fa,
  P pixels -> pixels !! i = Some p -> 1 <= fa <= 255 ->
  P (<[i := source_over r g b fa p]> pixels).

Local Abbreviation Inv := (sized P canvas_w canvas_h).

Lemma blend_column_satisfies img r g b a y dst_y x pixels :
  0 <= a <= 255 -> 0 <= dst_y < canvas_h ->
  E BitmapOutOfBounds
  \/ (exists c, read_bitmap img y x = Ok c) ->
  Inv pixels ->
  satisfies Inv E (blend_column canvas_w canvas_h img r g b a y dst_y x pixels).
Proof.
  intros Ha Hy Hread [HP Hlen].
  destruct (blend_column_outcome img r g b a y dst_y x pixels Ha Hy Hlen)
    as [-> | [[-> Hbad] | (p & fa & Hx & Hp & Hfa & ->)]]; simpl.
  - split; assumption.
  - destruct Hread as [HE|[c Hc]]; [assumption|congruence].
  - split; [eapply P_update; eassumption|].
    rewrite length_insert. assumption.
Qed.

Lemma blend_row_satisfies img r g b a y pixels :
  0 <= a <= 255 -> 0 <= y < Img.h img ->
  E BitmapOutOfBounds \/ bitmap_covers img ->
  Inv pixels ->
  satisfies Inv E (blend_row canvas_w canvas_h img r g b a y pixels).
Proof.
  intros Ha Hy Hcov Hinv. unfold blend_row.
  destruct ((Img.dst_y img + y <? 0) || (Img.dst_y img + y >=? canvas_h))
    eqn:Hin; [exact Hinv|].
  apply orb_false_iff in Hin as [Hy0 Hy1].
  apply for_each_satisfies; [|exact Hinv].
  intros x s Hx Hs. apply elem_of_seqZ in Hx.
  apply blend_column_satisfies; [assumption|lia| |assumption].
  destruct Hcov as [HE|Hcov]; [auto|right].
  destruct (read_bitmap_covered img y x Hcov) as (k & _ & Hk); [lia|lia|].
  eauto.
Qed.

Lemma blend_one_satisfies img pixels :
  E BitmapOutOfBounds \/ bitmap_covers img ->
  Inv pixels ->
  satisfies Inv E (blend_one canvas_w canvas_h img pixels).
Proof.
  intros Hcov Hinv. unfold blend_one.
  apply for_each_satisfies; [|exact Hinv].
  intros y s Hy Hs. apply elem_of_seqZ in Hy.
  apply blend_row_satisfies; [apply byte_at_range|lia|assumption|assumption].
Qed.

Lemma blend_ass_image_satisfies img_list pixels :
  (forall img, img ∈ img_list -> E BitmapOutOfBounds \/ bitmap_covers img) ->
  P pixels -> length pixels = Z.to_nat (canvas_w * canvas_h) ->
  satisfies Inv E (blend_ass_image canvas_w canvas_h pixels img_list).
Proof.
  intros Hcov HP Hlen. unfold blend_ass_image.
  apply for_each_satisfies; [|split; assumption].
  intros img s Himg Hs. apply blend_one_satisfies; auto.
Qed.
End Invariant.
End BlendFacts.

(** ** The bounding-box reducer *)

Lemma int32_fits z : fits_int z -> int32 z = z.
Proof.
  unfold fits_int, int32. intros Hz.
  rewrite Z.mod_small by lia. lia.
Qed.

Lemma int_extent_fits img : extent_fits img -> int_extent img = placed_extent img.
Proof.
  intros [Hx Hy]. unfold int_extent, placed_extent.
  rewrite !int32_fits by assumption. reflexivity.
Qed.

(** One iteration is the min/max step on the numbers it computed, for a
    fragment of positive size, and nothing for another. *)
Lemma bbox_step_fold_box acc img :
  bbox_step acc img
  = if positive_size img then fold_box acc (int_extent img) else acc.
Proof.
  destruct acc as [[[l t] r] b]. unfold bbox_step, positive_size, fold_box,
    int_extent.
  destruct (Z.leb_spec (Img.w img) 0), (Z.leb_spec (Img.h img) 0),
    (Z.ltb_spec 0 (Img.w img)), (Z.ltb_spec 0 (Img.h img));
    cbn [orb andb]; try lia; try reflexivity.
  rewrite !Z.gtb_ltb.
  repeat match goal with
         | |- context [?x <? ?y] => destruct (Z.ltb_spec x y)
         end; (f_equal; [f_equal; [f_equal|]|]); lia.
Qed.

(** Where the sums fit it is the step of the specification. *)
Lemma bbox_step_fold_extent acc img :
  (positive_size img = true -> extent_fits img) ->
  bbox_step acc img = if positive_size img then fold_extent acc img else acc.
Proof.
  intros Hfit. rewrite bbox_step_fold_box.
  destruct (positive_size img); [|reflexivity].
  rewrite int_extent_fits by auto. destruct acc as [[[l t] r] b]. reflexivity.
Qed.

Lemma bbox_loop_filter img_list acc :
  (forall img, img ∈ img_list -> positive_size img = true -> extent_fits img) ->
  fold_left bbox_step img_list acc
  = fold_left fold_extent (List.filter positive_size img_list) acc.
Proof.
  revert acc. induction img_list as [|img l IH]; intros acc Hfit; simpl;
    [reflexivity|].
  rewrite IH by (intros g Hg; apply Hfit, elem_of_cons; auto).
  rewrite bbox_step_fold_extent by (apply Hfit, elem_of_cons; auto).
  destruct (positive_size img); reflexivity.
Qed.

Lemma bbox_step_comm acc f g :
  bbox_step (bbox_step acc f) g = bbox_step (bbox_step acc g) f.
Proof.
  rewrite !bbox_step_fold_box.
  destruct (positive_size f), (positive_size g); try reflexivity.
  destruct acc as [[[l t] r] b]. unfold fold_box, int_extent.
  f_equal; [f_equal; [f_equal|]|]; lia.
Qed.

(** The fold does not depend on where in the chain a fragment sits. *)
Lemma bbox_fold_step_out post acc f :
  fold_left bbox_step post (bbox_step acc f)
  = bbox_step (fold_left bbox_step post acc) f.
Proof.
  revert acc. induction post as [|g post IH]; intros acc; simpl; [reflexivity|].
  rewrite bbox_step_comm. apply IH.
Qed.

Lemma bbox_loop_insert pre f post canvas_w canvas_h :
  bbox_loop (pre ++ f :: post) canvas_w canvas_h
  = bbox_step (bbox_loop (pre ++ post) canvas_w canvas_h) f.
Proof.
  unfold bbox_loop. rewrite !fold_left_app. simpl. apply bbox_fold_step_out.
Qed.

Lemma bbox_step_half_bounded canvas_w canvas_h acc img :
  half_bounded canvas_w canvas_h acc ->
  half_bounded canvas_w canvas_h (bbox_step acc img).
Proof.
  rewrite bbox_step_fold_box. destruct (positive_size img); [|auto].
  destruct acc as [[[l t] r] b]. unfold half_bounded, fold_box, int_extent.
  lia.
Qed.

Lemma bbox_fold_half_bounded canvas_w canvas_h img_list acc :
  half_bounded canvas_w canvas_h acc ->
  half_bounded canvas_w canvas_h (fold_left bbox_step img_list acc).
Proof.
  revert acc. induction img_list as [|img l IH]; intros acc Hacc; simpl; auto.
  apply IH, bbox_step_half_bounded, Hacc.
Qed.

(** An ordered rectangle stays ordered, and a fragment of positive size
    whose sums fit orders any rectangle. *)
Lemma bbox_step_strictly_ordered acc img :
  strictly_ordered acc \/ (positive_size img = true /\ extent_fits img) ->
  strictly_ordered (bbox_step acc img).
Proof.
  rewrite bbox_step_fold_box.
  destruct (positive_size img) eqn:Hpos.
  - intros [Hs|[_ Hfit]].
    + destruct acc as [[[l t] r] b].
      unfold strictly_ordered, fold_box, int_extent in *. lia.
    + rewrite int_extent_fits by assumption.
      unfold positive_size in Hpos. apply andb_true_iff in Hpos as [Hw Hh].
      destruct acc as [[[l t] r] b].
      unfold strictly_ordered, fold_box, placed_extent. lia.
  - intros [Hs|[Hp _]]; [exact Hs|discriminate].
Qed.

Lemma bbox_fold_strictly_ordered img_list acc :
  strictly_ordered acc
  \/ (exists img, img ∈ img_list /\ positive_size img = true /\ extent_fits img) ->
  strictly_ordered (fold_left bbox_step img_list acc).
Proof.
  revert acc. induction img_list as [|img l IH]; intros acc H; simpl.
  - destruct H as [H|(img & Hin & _)]; [exact H|]. inversion Hin.
  - apply IH. destruct H as [H|(img' & Hin & Hpos & Hfit)].
    + left. apply bbox_step_strictly_ordered. auto.
    + apply elem_of_cons in Hin as [->|Hin].
      * left. apply bbox_step_strictly_ordered. auto.
      * right. eauto.
Qed.

Lemma bbox_loop_degenerate img_list acc :
  (forall img, img ∈ img_list -> positive_size img = false) ->
  fold_left bbox_step img_list acc = acc.
Proof.
  revert acc. induction img_list as [|img l IH]; intros acc H; simpl; [reflexivity|].
  rewrite bbox_step_fold_box, (H img) by (apply elem_of_cons; auto).
  apply IH. intros g Hg. apply H, elem_of_cons. auto.
Qed.

(** ** Properties of the bounding-box reducer *)

(** The compiled reducer at the edge of [int]: for [far_right] on a 4x4
    canvas the sum [dst_x + w] wraps to the least [int] and the rectangle is
    [(4, 0, 0, 1)], where exact sums would give [(4, 0, 4, 1)]. *)
Example far_right_wraps :
  compute_bounding_box [far_right] 4 4 = (4, 0, 0, 1)
  /\ spec_bounding_box [far_right] 4 4 = (4, 0, 4, 1).
Proof. split; vm_compute; reflexivity. Qed.

(** C2: [compute_bounding_box] is the reducer of the specification: from
    [(canvas_w, canvas_h, 0, 0)] it folds the raw placed extent
    [(dst_x, dst_y, dst_x + w, dst_y + h)] of every fragment of positive
    width and height by component-wise min/max, with no clipping of the
    single fragments, and clamps the final rectangle ([left], [top] to at
    least 0, [right], [bottom] to at most the canvas dimensions), for every
    chain whose fragments of positive size have sums [dst_x + w],
    [dst_y + h] that fit in an [int], and for all canvas dimensions. On a
    canvas of non-negative dimensions a chain that is empty or has only
    degenerate fragments yields exactly [(canvas_w, canvas_h, 0, 0)]. *)
Theorem compute_bounding_box_is_clamped_fold
        (img_list : ASS_Image_list) (canvas_w canvas_h : Z) :
  (forall img, img ∈ img_list -> positive_size img = true -> extent_fits img) ->
  compute_bounding_box img_list canvas_w canvas_h
  = spec_bounding_box img_list canvas_w canvas_h
  /\ (0 <= canvas_w -> 0 <= canvas_h ->
      (forall img, img ∈ img_list -> positive_size img = false) ->
      compute_bounding_box img_list canvas_w canvas_h
      = (canvas_w, canvas_h, 0, 0)).
Proof.
  intros Hfit. split.
  - unfold compute_bounding_box, spec_bounding_box, bbox_loop.
    rewrite bbox_loop_filter by exact Hfit.
    destruct (fold_left fold_extent _ _) as [[[l t] r] b].
    unfold clamp_to_canvas. rewrite !Z.gtb_ltb.
    destruct (Z.ltb_spec l 0), (Z.ltb_spec t 0),
      (Z.ltb_spec canvas_w r), (Z.ltb_spec canvas_h b);
      (f_equal; [f_equal; [f_equal|]|]); lia.
  - intros Hw Hh Hdeg. unfold compute_bounding_box, bbox_loop.
    rewrite bbox_loop_degenerate by assumption. rewrite !Z.gtb_ltb.
    destruct (Z.ltb_spec canvas_w 0), (Z.ltb_spec canvas_h 0),
      (Z.ltb_spec canvas_w 0), (Z.ltb_spec canvas_h 0); try lia.
    reflexivity.
Qed.

Lemma extent_fits_blank_2x2 : extent_fits blank_2x2.
Proof. split; unfold fits_int; simpl; lia. Qed.

Lemma compute_bounding_box_is_clamped_fold_witness :
  compute_bounding_box [overhang; blank_2x2; zero_width] 4 4
  = spec_bounding_box [overhang; blank_2x2; zero_width] 4 4
  /\ compute_bounding_box [zero_width] 4 4 = (4, 4, 0, 0).
Proof.
  split.
  - apply (compute_bounding_box_is_clamped_fold
             [overhang; blank_2x2; zero_width] 4 4).
    intros img Himg _.
    repeat (apply elem_of_cons in Himg as [->|Himg];
            [split; unfold fits_int; simpl; lia|]).
    inversion Himg.
  - apply (compute_bounding_box_is_clamped_fold [zero_width] 4 4); [|lia|lia|].
    + intros img Himg Hpos. apply list_elem_of_singleton in Himg. subst img.
      discriminate Hpos.
    + intros img Himg. apply list_elem_of_singleton in Himg. subst img.
      reflexivity.
Defined.

(** C6, amended: on a canvas of non-negative dimensions the rectangle of
    [compute_bounding_box] has its four edges within the canvas, and it is
    ordered ([left <= right], [top <= bottom]) as soon as the chain holds
    one fragment of positive width and height whose sums [dst_x + w],
    [dst_y + h] fit in an [int]. *)
Theorem compute_bounding_box_within_canvas
        (img_list : ASS_Image_list) (canvas_w canvas_h : Z) :
  0 <= canvas_w -> 0 <= canvas_h ->
  let '(l, t, r, b) := compute_bounding_box img_list canvas_w canvas_h in
  (0 <= l <= canvas_w /\ 0 <= r <= canvas_w /\
   0 <= t <= canvas_h /\ 0 <= b <= canvas_h)
  /\ ((exists img, img ∈ img_list /\ positive_size img = true
                   /\ extent_fits img) ->
      bbox_invariant canvas_w canvas_h (l, t, r, b)).
Proof.
  intros Hw Hh. unfold compute_bounding_box, bbox_loop.
  pose proof (bbox_fold_half_bounded canvas_w canvas_h img_list
                (canvas_w, canvas_h, 0, 0)) as Hhalf.
  pose proof (bbox_fold_strictly_ordered img_list (canvas_w, canvas_h, 0, 0))
    as Hord.
  destruct (fold_left bbox_step img_list (canvas_w, canvas_h, 0, 0))
    as [[[l t] r] b].
  unfold half_bounded, strictly_ordered, bbox_invariant in *.
  specialize (Hhalf ltac:(lia)). rewrite !Z.gtb_ltb.
  destruct (Z.ltb_spec l 0), (Z.ltb_spec t 0),
    (Z.ltb_spec canvas_w r), (Z.ltb_spec canvas_h b);
    (split; [lia|]); intros Hex; specialize (Hord (or_intror Hex)); lia.
Qed.

Lemma compute_bounding_box_within_canvas_witness :
  compute_bounding_box [blank_2x2; zero_width; far_right] 4 4 = (0, 0, 2, 2)
  /\ bbox_invariant 4 4 (0, 0, 2, 2).
Proof.
  split; [reflexivity|].
  pose proof (compute_bounding_box_within_canvas
                [blank_2x2; zero_width; far_right] 4 4
                ltac:(lia) ltac:(lia)) as H.
  change (compute_bounding_box [blank_2x2; zero_width; far_right] 4 4)
    with (0, 0, 2, 2) in H.
  apply H. exists blank_2x2.
  split; [apply elem_of_cons; auto|].
  split; [reflexivity | exact extent_fits_blank_2x2].
Defined.

(** C6, as stated, fails: for the empty chain on a 4x4 canvas the result is
    [(4, 4, 0, 0)], whose [left] exceeds its [right]. *)
Lemma bbox_invariant_fails_on_empty_chain :
  compute_bounding_box [] 4 4 = (4, 4, 0, 0)
  /\ ~ bbox_invariant 4 4 (compute_bounding_box [] 4 4).
Proof.
  split; [reflexivity|]. vm_compute. intros [[_ [H _]] _]. apply H. reflexivity.
Qed.

(** ** Properties of the compositor *)

Lemma blend_column_skips_zero canvas_w canvas_h img r g b a y dst_y x pixels :
  read_bitmap img y x = Ok 0 ->
  blend_column canvas_w canvas_h img r g b a y dst_y x pixels = Ok pixels.
Proof.
  intros Hread. unfold blend_column. rewrite Hread.
  destruct (_ || _); reflexivity.
Qed.

Lemma read_bitmap_coverage_zero img y x :
  coverage_zero img -> bitmap_covers img ->
  0 <= x < Img.w img -> 0 <= y < Img.h img ->
  read_bitmap img y x = Ok 0.
Proof.
  intros Hzero Hcov Hx Hy.
  destruct (read_bitmap_covered img y x Hcov Hx Hy) as (k & Hk & ->).
  rewrite (Hzero k); [reflexivity|].
  apply list_elem_of_lookup. eauto.
Qed.

(** A fragment whose coverage is zero everywhere is a no-op of the chain
    loop. *)
Lemma blend_one_coverage_zero canvas_w canvas_h img pixels :
  coverage_zero img -> bitmap_covers img ->
  blend_one canvas_w canvas_h img pixels = Ok pixels.
Proof.
  intros Hzero Hcov. unfold blend_one.
  apply for_each_unchanged. intros y Hy. apply elem_of_seqZ in Hy.
  unfold blend_row. destruct (_ || _); [reflexivity|].
  apply for_each_unchanged. intros x Hx. apply elem_of_seqZ in Hx.
  apply blend_column_skips_zero, read_bitmap_coverage_zero; auto; lia.
Qed.

Lemma alpha_not_lower_refl pixels : alpha_not_lower pixels pixels.
Proof. split; [reflexivity|]. intros i p p' Hp Hp'. assert (p = p') by congruence. subst. lia. Qed.

Lemma alpha_not_lower_update pixels later i p r g b fa :
  alpha_not_lower pixels later -> later !! i = Some p -> 1 <= fa <= 255 ->
  alpha_not_lower pixels (<[i := source_over r g b fa p]> later).
Proof.
  intros [Hlen Hmono] Hi Hfa. split; [rewrite length_insert; exact Hlen|].
  intros j q q' Hq Hq'.
  destruct (Nat.eq_dec i j) as [->|Hne].
  - rewrite list_lookup_insert_eq in Hq' by (eapply lookup_lt_Some; eauto).
    injection Hq' as <-.
    apply Z.le_trans with (alpha_of p); [eapply Hmono; eauto|].
    apply source_over_alpha_not_lower. lia.
  - rewrite list_lookup_insert_ne in Hq' by assumption. eapply Hmono; eauto.
Qed.

(** C3, amended: a fragment whose bitmap bytes are all zero (and whose
    bitmap holds the rows the loops read) changes nothing on the canvas:
    dropping it from any place of any chain gives the same composite. The
    bounding box does not look at bitmap bytes: the extent of such a fragment
    is folded into the rectangle like any other, and dropping it leaves the
    bounding box identical when its width or height is not positive. *)
Theorem coverage_zero_fragment
        (canvas_w canvas_h : Z) (pixels : list Z)
        (pre post : ASS_Image_list) (img : Img.t) :
  coverage_zero img -> bitmap_covers img ->
  blend_ass_image canvas_w canvas_h pixels (pre ++ img :: post)
  = blend_ass_image canvas_w canvas_h pixels (pre ++ post)
  /\ bbox_loop (pre ++ img :: post) canvas_w canvas_h
     = bbox_step (bbox_loop (pre ++ post) canvas_w canvas_h) img
  /\ (positive_size img = false ->
      compute_bounding_box (pre ++ img :: post) canvas_w canvas_h
      = compute_bounding_box (pre ++ post) canvas_w canvas_h).
Proof.
  intros Hzero Hcov. split; [|split].
  - unfold blend_ass_image. rewrite !for_each_app.
    destruct (for_each _ pre pixels) as [s|e]; simpl; [|reflexivity].
    rewrite blend_one_coverage_zero by assumption. reflexivity.
  - apply bbox_loop_insert.
  - intros Hdeg. unfold compute_bounding_box.
    rewrite bbox_loop_insert, bbox_step_fold_box, Hdeg. reflexivity.
Qed.

Lemma coverage_zero_blank_2x2 : coverage_zero blank_2x2.
Proof.
  intros c Hc. simpl in Hc.
  repeat (apply elem_of_cons in Hc as [->|Hc]; [reflexivity|]).
  inversion Hc.
Qed.

Lemma bitmap_covers_blank_2x2 : bitmap_covers blank_2x2.
Proof. intros x y Hx Hy. simpl in *. lia. Qed.

Lemma coverage_zero_fragment_witness :
  blend_ass_image 4 4 (zero_canvas 16) ([half_red] ++ blank_2x2 :: [half_blue])
  = blend_ass_image 4 4 (zero_canvas 16) ([half_red] ++ [half_blue])
  /\ bbox_loop ([half_red] ++ blank_2x2 :: [half_blue]) 4 4
     = bbox_step (bbox_loop ([half_red] ++ [half_blue]) 4 4) blank_2x2.
Proof.
  destruct (coverage_zero_fragment 4 4 (zero_canvas 16) [half_red] [half_blue]
              blank_2x2 coverage_zero_blank_2x2 bitmap_covers_blank_2x2)
    as (Hblend & Hbox & _).
  split; assumption.
Defined.

(** C3, as stated, fails: [blank_2x2] has only zero coverage bytes, yet with
    it the bounding box on a 4x4 canvas is [(0, 0, 2, 2)] and without it
    [(4, 4, 0, 0)]. *)
Lemma coverage_zero_fragment_enters_bounding_box :
  coverage_zero blank_2x2
  /\ compute_bounding_box ([] ++ blank_2x2 :: []) 4 4 = (0, 0, 2, 2)
  /\ compute_bounding_box ([] ++ []) 4 4 = (4, 4, 0, 0)
  /\ compute_bounding_box ([] ++ blank_2x2 :: []) 4 4
     <> compute_bounding_box ([] ++ []) 4 4.
Proof.
  split; [exact coverage_zero_blank_2x2|].
  split; [reflexivity|]. split; [reflexivity|]. discriminate.
Qed.

(** A fragment hanging over the left and bottom edges of a 2x2 canvas only
    reaches the two pixels of the bottom row. *)
Example overhang_is_clipped :
  blend_ass_image 2 2 (zero_canvas 4) [overhang]
  = Ok [0; 0; 0xFF00FF00; 0xFF00FF00].
Proof. vm_compute. reflexivity. Qed.

(** C4: on a canvas of [canvas_w * canvas_h] pixels the only canvas accesses
    that succeed are those at coordinates of [0, canvas_w) x [0, canvas_h),
    and [blend_ass_image] never makes another one, whatever the offsets and
    sizes of the fragments: it never fails with [CanvasOutOfBounds], and
    when every bitmap holds the rows that are read it returns a canvas of
    the same size. *)
Theorem blend_ass_image_stays_inside_canvas
        (canvas_w canvas_h : Z) (pixels : list Z) (img_list : ASS_Image_list) :
  length pixels = Z.to_nat (canvas_w * canvas_h) ->
  (forall x y, (exists p, read_pixel pixels canvas_w canvas_h x y = Ok p)
               <-> (0 <= x < canvas_w /\ 0 <= y < canvas_h))
  /\ (forall x y v,
        (exists pixels', write_pixel pixels canvas_w canvas_h x y v = Ok pixels')
        <-> (0 <= x < canvas_w /\ 0 <= y < canvas_h))
  /\ blend_ass_image canvas_w canvas_h pixels img_list <> Err CanvasOutOfBounds
  /\ ((forall img, img ∈ img_list -> bitmap_covers img) ->
      exists pixels',
        blend_ass_image canvas_w canvas_h pixels img_list = Ok pixels'
        /\ length pixels' = length pixels).
Proof.
  intros Hlen. split; [|split; [|split]].
  - intros x y. apply read_pixel_ok_iff, Hlen.
  - intros x y v. apply write_pixel_ok_iff, Hlen.
  - pose proof (blend_ass_image_satisfies canvas_w canvas_h
                  (fun _ => True) (fun e => e = BitmapOutOfBounds)
                  ltac:(auto) img_list pixels ltac:(auto) I Hlen) as Hsat.
    intros Heq. rewrite Heq in Hsat. simpl in Hsat. discriminate.
  - intros Hcov.
    pose proof (blend_ass_image_satisfies canvas_w canvas_h
                  (fun _ => True) (fun _ => False)
                  ltac:(auto) img_list pixels ltac:(auto) I Hlen) as Hsat.
    apply satisfies_no_error in Hsat as (pixels' & Hok & _ & Hlen').
    exists pixels'. split; [assumption|congruence].
Qed.

Lemma bitmap_covers_overhang : bitmap_covers overhang.
Proof. intros x y Hx Hy. simpl in *. lia. Qed.

Lemma blend_ass_image_stays_inside_canvas_witness :
  blend_ass_image 2 2 (zero_canvas 4) [overhang] <> Err CanvasOutOfBounds
  /\ exists pixels',
       blend_ass_image 2 2 (zero_canvas 4) [overhang] = Ok pixels'
       /\ length pixels' = length (zero_canvas 4).
Proof.
  destruct (blend_ass_image_stays_inside_canvas 2 2 (zero_canvas 4) [overhang]
              eq_refl) as (_ & _ & Hsafe & Htotal).
  split; [exact Hsafe|].
  apply Htotal. intros img Himg. apply list_elem_of_singleton in Himg.
  subst img. exact bitmap_covers_overhang.
Defined.

(** C5: for [src_alpha] and [dst_a] in [0, 255] the output alpha
    [src_alpha + dst_a * (255 - src_alpha) / 255] (truncating division) is at
    most 255, and the value [out_alpha] stores in the 8-bit channel is
    exactly that number: nothing wraps and nothing is saturated. *)
Theorem out_alpha_fits_in_a_byte (src_alpha dst_a : Z) :
  0 <= src_alpha <= 255 -> 0 <= dst_a <= 255 ->
  src_alpha + Z.quot (dst_a * (255 - src_alpha)) 255 <= 255
  /\ out_alpha src_alpha dst_a
     = src_alpha + Z.quot (dst_a * (255 - src_alpha)) 255.
Proof.
  intros Hs Hd.
  destruct (scaled_alpha_bounds src_alpha dst_a Hs Hd) as [[Hlo Hhi] H0].
  rewrite <- udiv_is_truncating by nia.
  split; [lia | apply out_alpha_exact; assumption].
Qed.

Lemma out_alpha_fits_in_a_byte_witness :
  200 + Z.quot (100 * (255 - 200)) 255 <= 255
  /\ out_alpha 200 100 = 200 + Z.quot (100 * (255 - 200)) 255.
Proof. apply (out_alpha_fits_in_a_byte 200 100); lia. Defined.

(** C7: for the empty chain, on a canvas of non-negative dimensions,
    [compute_bounding_box] returns [(canvas_w, canvas_h, 0, 0)], and
    [blend_ass_image] returns the canvas it was given: a zero-initialised
    canvas stays zero at every pixel. *)
Theorem empty_chain_is_neutral (canvas_w canvas_h : Z) :
  0 <= canvas_w -> 0 <= canvas_h ->
  compute_bounding_box [] canvas_w canvas_h = (canvas_w, canvas_h, 0, 0)
  /\ (forall pixels, blend_ass_image canvas_w canvas_h pixels [] = Ok pixels)
  /\ exists pixels',
       blend_ass_image canvas_w canvas_h (zero_canvas (canvas_w * canvas_h)) []
       = Ok pixels'
       /\ length pixels' = Z.to_nat (canvas_w * canvas_h)
       /\ forall i p, pixels' !! i = Some p -> p = 0.
Proof.
  intros Hw Hh. split; [|split].
  - unfold compute_bounding_box, bbox_loop. simpl. rewrite !Z.gtb_ltb.
    destruct (Z.ltb_spec canvas_w 0), (Z.ltb_spec canvas_h 0),
      (Z.ltb_spec canvas_w 0), (Z.ltb_spec canvas_h 0); try lia.
    reflexivity.
  - reflexivity.
  - exists (zero_canvas (canvas_w * canvas_h)). split; [reflexivity|].
    unfold zero_canvas. split; [apply length_replicate|].
    intros i p Hp. apply lookup_replicate in Hp as [-> _]. reflexivity.
Qed.

Lemma empty_chain_is_neutral_witness :
  compute_bounding_box [] 4 3 = (4, 3, 0, 0)
  /\ blend_ass_image 4 3 (zero_canvas 12) [] = Ok (zero_canvas 12).
Proof.
  destruct (empty_chain_is_neutral 4 3 ltac:(lia) ltac:(lia)) as (Hbox & Hid & _).
  split; [exact Hbox | apply Hid].
Defined.

(** C10: for [src_alpha] in [1, 255] and [dst_a] in [0, 255] the output
    alpha [src_alpha + dst_a * (255 - src_alpha) / 255] (truncating division)
    is at least [dst_a]; hence along any chain the alpha channel of every
    canvas pixel never decreases: the canvas after a prefix of the chain has
    no alpha below the initial one, and the canvas after the whole chain has
    none below that of the prefix. *)
Theorem alpha_never_decreases
        (src_alpha dst_a canvas_w canvas_h : Z) (pixels : list Z)
        (prefix rest : ASS_Image_list) :
  1 <= src_alpha <= 255 -> 0 <= dst_a <= 255 ->
  length pixels = Z.to_nat (canvas_w * canvas_h) ->
  (forall img, img ∈ prefix ++ rest -> bitmap_covers img) ->
  (out_alpha src_alpha dst_a
   = src_alpha + Z.quot (dst_a * (255 - src_alpha)) 255
   /\ dst_a <= out_alpha src_alpha dst_a)
  /\ exists mid final,
       blend_ass_image canvas_w canvas_h pixels prefix = Ok mid
       /\ blend_ass_image canvas_w canvas_h pixels (prefix ++ rest) = Ok final
       /\ alpha_not_lower pixels mid
       /\ alpha_not_lower mid final.
Proof.
  intros Hs Hd Hlen Hcov. split.
  - assert (Hs' : 0 <= src_alpha <= 255) by lia.
    destruct (scaled_alpha_bounds src_alpha dst_a Hs' Hd) as [[Hlo Hhi] H0].
    rewrite <- udiv_is_truncating by nia.
    rewrite out_alpha_exact by assumption. split; [reflexivity|lia].
  - pose proof (blend_ass_image_satisfies canvas_w canvas_h
                  (alpha_not_lower pixels) (fun _ => False)
                  (alpha_not_lower_update pixels) prefix pixels) as Hmid.
    apply satisfies_no_error in Hmid as (mid & Hmid & Hmono & Hlen_mid);
      [| intros img Himg; right; apply Hcov, elem_of_app; auto
       | apply alpha_not_lower_refl | exact Hlen].
    pose proof (blend_ass_image_satisfies canvas_w canvas_h
                  (alpha_not_lower mid) (fun _ => False)
                  (alpha_not_lower_update mid) rest mid) as Hfin.
    apply satisfies_no_error in Hfin as (final & Hfin & Hmono' & _);
      [| intros img Himg; right; apply Hcov, elem_of_app; auto
       | apply alpha_not_lower_refl | exact Hlen_mid].
    exists mid, final. repeat split; try assumption; try apply Hmono; try apply Hmono'.
    unfold blend_ass_image in *. rewrite for_each_app, Hmid. exact Hfin.
Qed.

Lemma bitmap_covers_one_pixel c col x y :
  bitmap_covers (Img.Make 1 1 1 [c] col x y).
Proof. intros i j Hi Hj. simpl in *. lia. Qed.

Lemma alpha_never_decreases_witness :
  (out_alpha 200 100 = 200 + Z.quot (100 * (255 - 200)) 255
   /\ 100 <= out_alpha 200 100)
  /\ exists mid final,
       blend_ass_image 1 1 (zero_canvas 1) [half_red] = Ok mid
       /\ blend_ass_image 1 1 (zero_canvas 1) ([half_red] ++ [half_blue]) = Ok final
       /\ alpha_not_lower (zero_canvas 1) mid
       /\ alpha_not_lower mid final.
Proof.
  apply (alpha_never_decreases 200 100 1 1 (zero_canvas 1) [half_red] [half_blue]);
    [lia | lia | reflexivity |].
  intros img Himg.
  apply elem_of_cons in Himg as [->|Himg]; [apply bitmap_covers_one_pixel|].
  apply list_elem_of_singleton in Himg. subst img. apply bitmap_covers_one_pixel.
Defined.

(** On byte inputs the quotient the code forms is the one of the
    specification; what is stored is its low byte. *)
Lemma channel_quotient_exact c fa dc da oa :
  0 <= c <= 255 -> 0 <= fa <= 255 -> 0 <= dc <= 255 -> 0 <= da <= 255 ->
  channel_quotient c fa dc da oa = spec_channel c fa dc da oa.
Proof.
  intros Hc Hfa Hdc Hda. unfold channel_quotient, spec_channel.
  rewrite (u32_small (255 - fa)) by lia.
  rewrite (u32_small (c * fa)) by nia.
  rewrite (u32_small (dc * da)) by nia.
  assert (Hprod : 0 <= dc * da * (255 - fa) <= 255 * 255 * 255).
  { assert (0 <= dc * da <= 255 * 255) by nia. nia. }
  rewrite (u32_small (dc * da * (255 - fa))) by lia.
  assert (Hq : 0 <= dc * da * (255 - fa) / 255 <= 255 * 255).
  { split; [apply Z.div_pos; lia | apply Z.div_le_upper_bound; lia]. }
  rewrite u32_small by nia. reflexivity.
Qed.

Lemma out_channel_low_byte c fa dc da oa :
  0 <= c <= 255 -> 0 <= fa <= 255 -> 0 <= dc <= 255 -> 0 <= da <= 255 ->
  oa <> 0 ->
  out_channel c fa dc da oa = spec_channel c fa dc da oa mod 2 ^ 8.
Proof.
  intros Hc Hfa Hdc Hda Hoa. unfold out_channel.
  destruct (Z.eqb_spec oa 0) as [|_]; [contradiction|].
  rewrite channel_quotient_exact by assumption. reflexivity.
Qed.

(** Where every channel quotient fits in a byte, the pixel the code writes
    is the pixel of the specification. *)
Lemma source_over_is_spec_pixel_when_channels_fit r g b fa p :
  0 <= r <= 255 -> 0 <= g <= 255 -> 0 <= b <= 255 -> 0 <= fa <= 255 ->
  (forall c k, 0 <= c <= 255 ->
     spec_channel c fa (byte_at p k) (alpha_of p) (out_alpha fa (alpha_of p))
     <= 255) ->
  source_over r g b fa p = spec_pixel r g b fa p.
Proof.
  intros Hr Hg Hb Hfa Hfit. unfold source_over, spec_pixel.
  fold (alpha_of p). pose proof (alpha_of_range p) as Hp.
  rewrite <- (out_alpha_exact fa (alpha_of p)) by assumption.
  pose proof (out_alpha_range fa (alpha_of p)) as Hoa.
  rewrite pack_argb_sum by auto using out_channel_range.
  assert (Hch : forall c k, 0 <= c <= 255 ->
            out_channel c fa (byte_at p k) (alpha_of p) (out_alpha fa (alpha_of p))
            = if out_alpha fa (alpha_of p) =? 0 then 0
              else spec_channel c fa (byte_at p k) (alpha_of p)
                                (out_alpha fa (alpha_of p))).
  { intros c k Hc. unfold out_channel.
    destruct (Z.eqb_spec (out_alpha fa (alpha_of p)) 0) as [|Hne]; [reflexivity|].
    rewrite channel_quotient_exact by auto using byte_at_range.
    apply u8_small. specialize (Hfit c k Hc).
    assert (0 <= spec_channel c fa (byte_at p k) (alpha_of p)
                              (out_alpha fa (alpha_of p))); [|lia].
    unfold spec_channel. pose proof (byte_at_range p k).
    apply Z.div_pos; [|lia].
    assert (0 <= byte_at p k * alpha_of p * (255 - fa) / 255)
      by (apply Z.div_pos; [|lia]; assert (0 <= byte_at p k * alpha_of p) by nia; nia).
    nia. }
  rewrite !Hch by assumption. reflexivity.
Qed.

(** C1, the code at an input where the claim fails: two copies of a blue
    fragment of effective alpha 1 over one zero pixel. The first copy leaves
    [0x010000FF]. For the second, [out_a] is 1 and the claimed blue channel
    [(255 * 1 + 255 * 1 * 254 / 255) / 1] is 509, which no 8-bit channel
    holds: the code stores its low byte 253 and the pixel is [0x010000FD],
    where the pixel of the specification would be [0x010001FD]. *)
Theorem blue_channel_wraps_on_faint_blue :
  blend_ass_image 1 1 (zero_canvas 1) [faint_blue] = Ok [0x010000FF]
  /\ blend_ass_image 1 1 (zero_canvas 1) [faint_blue; faint_blue]
     = Ok [0x010000FD]
  /\ final_alpha_of 1 (byte_at (Img.color faint_blue) 0) = 1
  /\ out_alpha 1 (alpha_of 0x010000FF) = 1
  /\ spec_channel 255 1 (byte_at 0x010000FF 0) (alpha_of 0x010000FF) 1 = 509
  /\ out_channel 255 1 (byte_at 0x010000FF 0) (alpha_of 0x010000FF) 1 = 253
  /\ source_over 0 0 255 1 0x010000FF = 0x010000FD
  /\ spec_pixel 0 0 255 1 0x010000FF = 0x010001FD.
Proof. repeat split; vm_compute; reflexivity. Qed.

(** C8: [half_red] and [half_blue] cover the same pixel, each with effective
    alpha 128; over a zero canvas, red then blue gives [0xBF5500AA] and blue
    then red gives [0xBFAA0055]: the composite depends on the order. *)
Theorem source_over_is_order_sensitive :
  exists (f1 f2 : Img.t) (c12 c21 : list Z),
    placed_extent f1 = placed_extent f2
    /\ positive_size f1 = true
    /\ semi_transparent f1 /\ semi_transparent f2
    /\ blend_ass_image 1 1 (zero_canvas 1) [f1; f2] = Ok c12
    /\ blend_ass_image 1 1 (zero_canvas 1) [f2; f1] = Ok c21
    /\ c12 = [0xBF5500AA] /\ c21 = [0xBFAA0055]
    /\ c12 <> c21.
Proof.
  exists half_red, half_blue, [0xBF5500AA], [0xBFAA0055].
  assert (Hsemi : forall col, byte_at col 0 = 0 ->
            semi_transparent (Img.Make 1 1 1 [x80%byte] col 0 0)).
  { intros col Hcol c Hc. simpl in *. apply list_elem_of_singleton in Hc.
    subst c. rewrite Hcol. vm_compute. split; reflexivity. }
  split; [reflexivity|]. split; [reflexivity|].
  split; [apply Hsemi; reflexivity|]. split; [apply Hsemi; reflexivity|].
  split; [reflexivity|]. split; [reflexivity|].
  split; [reflexivity|]. split; [reflexivity|]. discriminate.
Qed.

(** ** The crop loop *)

Lemma memcpy_ok dst doff src soff n :
  0 <= doff -> 0 <= soff -> 0 <= n ->
  doff + n <= Z.of_nat (length dst) -> soff + n <= Z.of_nat (length src) ->
  memcpy dst doff src soff n
  = Ok (take (Z.to_nat doff) dst
        ++ take (Z.to_nat n) (drop (Z.to_nat soff) src)
        ++ drop (Z.to_nat (doff + n)) dst).
Proof.
  intros. unfold memcpy.
  destruct (Z.leb_spec 0 doff), (Z.leb_spec 0 soff), (Z.leb_spec 0 n),
    (Z.leb_spec (doff + n) (Z.of_nat (length dst))),
    (Z.leb_spec (soff + n) (Z.of_nat (length src))); try lia.
  reflexivity.
Qed.

(** Element [i] of the target after the copy: inside the copied range the
    matching element of the source, outside it the old element. *)
Lemma copied_lookup (dst src : list Z) (d s n i : nat) :
  (d + n <= length dst)%nat -> (s + n <= length src)%nat ->
  (take d dst ++ take n (drop s src) ++ drop (d + n) dst) !! i
  = if (d <=? i)%nat && (i <? d + n)%nat then src !! (s + (i - d))%nat
    else dst !! i.
Proof.
  intros Hd Hs.
  assert (Hlen1 : length (take d dst) = d) by (rewrite length_take; lia).
  assert (Hlen2 : length (take n (drop s src)) = n)
    by (rewrite length_take, length_drop; lia).
  destruct (Nat.leb_spec d i) as [Hdi|Hdi]; simpl.
  - rewrite lookup_app_r by lia. rewrite Hlen1.
    destruct (Nat.ltb_spec i (d + n)) as [Hin|Hin].
    + rewrite lookup_app_l by lia.
      rewrite lookup_take_lt by lia. apply lookup_drop.
    + rewrite lookup_app_r by lia. rewrite Hlen2, lookup_drop.
      f_equal. lia.
  - rewrite lookup_app_l by lia. apply lookup_take_lt. lia.
Qed.

Lemma copied_length (dst src : list Z) (d s n : nat) :
  (d + n <= length dst)%nat -> (s + n <= length src)%nat ->
  length (take d dst ++ take n (drop s src) ++ drop (d + n) dst) = length dst.
Proof.
  intros Hd Hs. rewrite !length_app, !length_take, !length_drop. lia.
Qed.

Lemma memcpy_spec dst doff src soff n :
  0 <= doff -> 0 <= soff -> 0 <= n ->
  doff + n <= Z.of_nat (length dst) -> soff + n <= Z.of_nat (length src) ->
  exists dst',
    memcpy dst doff src soff n = Ok dst'
    /\ length dst' = length dst
    /\ forall k, 0 <= k ->
         dst' !! Z.to_nat k
         = if (doff <=? k) && (k <? doff + n)
           then src !! Z.to_nat (soff + (k - doff))
           else dst !! Z.to_nat k.
Proof.
  intros Hd Hs Hn Hdn Hsn. eexists. split; [apply memcpy_ok; assumption|].
  rewrite Z2Nat.inj_add by lia.
  split; [apply copied_length; lia|].
  intros k Hk. rewrite copied_lookup by lia.
  destruct (Z.leb_spec doff k), (Z.ltb_spec k (doff + n)),
    (Nat.leb_spec (Z.to_nat doff) (Z.to_nat k)),
    (Nat.ltb_spec (Z.to_nat k) (Z.to_nat doff + Z.to_nat n));
    simpl; try lia; try reflexivity.
  f_equal. lia.
Qed.

(** Counted loops: an invariant indexed by the loop variable. *)
Lemma for_each_counted {St : Type} (body : Z -> St -> result St)
      (Inv : Z -> St -> Prop) (n : Z) (s : St) :
  0 <= n -> Inv 0 s ->
  (forall k t, 0 <= k < n -> Inv k t -> exists t', body k t = Ok t' /\ Inv (k + 1) t') ->
  exists s', for_each body (seqZ 0 n) s = Ok s' /\ Inv n s'.
Proof.
  intros Hn H0 Hstep.
  rewrite <- (Z2Nat.id n Hn).
  assert (Hle : (Z.to_nat n <= Z.to_nat n)%nat) by lia.
  revert Hle. generalize (Z.to_nat n) at 1 3 4 as m.
  induction m as [|m IH]; intros Hle.
  - exists s. split; [reflexivity|exact H0].
  - destruct IH as (t & Ht & Hinv); [lia|].
    destruct (Hstep (Z.of_nat m) t ltac:(lia) Hinv) as (t' & Ht' & Hinv').
    exists t'. rewrite seqZ_S, for_each_app, Ht, Z.add_0_l.
    cbn [bind for_each]. rewrite Ht'. cbn [bind].
    split; [reflexivity|].
    replace (Z.of_nat (S m)) with (Z.of_nat m + 1) by lia. exact Hinv'.
Qed.

Section CropRoundTrip.
(** A frame of [frame_w * frame_h] pixels and a non-empty rectangle
    [left_ <= x < right_], [top_ <= y < bottom_] inside it. *)
Context (frame_w frame_h left_ top_ right_ bottom_ : Z).
Context (canvas : list Z).
Hypothesis canvas_size : length canvas = Z.to_nat (frame_w * frame_h).
Hypothesis box_x : 0 <= left_ /\ left_ < right_ /\ right_ <= frame_w.
Hypothesis box_y : 0 <= top_ /\ top_ < bottom_ /\ bottom_ <= frame_h.

Local Abbreviation crop_w := (right_ - left_).
Local Abbreviation crop_h := (bottom_ - top_).
Local Abbreviation cropped :=
  (cropped_rows canvas frame_w left_ top_ crop_w crop_h).

Lemma crop_row_step k st :
  0 <= k < crop_h -> cropped k st ->
  exists st', crop_row frame_w left_ top_ crop_w k st = Ok st'
              /\ cropped (k + 1) st'.
Proof.
  intros Hk (Hfull & Hlen & Hrows). unfold crop_row.
  assert (Hcw : 0 < crop_w) by lia.
  assert (Harea : k * crop_w + crop_w <= crop_w * crop_h) by nia.
  destruct (memcpy_spec (bmp_pixels st) (k * crop_w) (full_pixels st)
              ((top_ + k) * frame_w + left_) crop_w)
    as (dst & Hcopy & Hlen' & Hget); try nia.
  { rewrite Hfull, canvas_size. nia. }
  rewrite Hcopy. cbn [bind]. eexists. split; [reflexivity|].
  split; [exact Hfull|]. split; [cbn; congruence|]. cbn.
  intros x y Hx Hy. rewrite Hget by nia. rewrite Hfull.
  destruct (Z.eq_dec y k) as [->|Hne].
  - destruct (Z.leb_spec (k * crop_w) (k * crop_w + x)),
      (Z.ltb_spec (k * crop_w + x) (k * crop_w + crop_w)); try lia.
    cbn [andb]. f_equal. lia.
  - assert (y * crop_w + crop_w <= k * crop_w) by nia.
    destruct (Z.leb_spec (k * crop_w) (y * crop_w + x)); [lia|].
    cbn [andb]. apply Hrows; lia.
Qed.

Lemma crop_loop_spec bmp :
  length bmp = Z.to_nat (crop_w * crop_h) ->
  exists crop,
    crop_loop frame_w left_ top_ crop_w crop_h (Buffers canvas bmp)
    = Ok (Buffers canvas crop)
    /\ length crop = Z.to_nat (crop_w * crop_h)
    /\ forall x y, 0 <= x < crop_w -> 0 <= y < crop_h ->
         crop !! Z.to_nat (y * crop_w + x)
         = canvas !! Z.to_nat ((top_ + y) * frame_w + left_ + x).
Proof.
  intros Hbmp. unfold crop_loop.
  destruct (for_each_counted (crop_row frame_w left_ top_ crop_w) cropped
              crop_h (Buffers canvas bmp))
    as ([full crop] & Hrun & Hfull & Hlen & Hrows).
  - lia.
  - split; [reflexivity|]. split; [exact Hbmp|]. intros; lia.
  - apply crop_row_step.
  - cbn in Hfull, Hlen, Hrows. subst full. exists crop. auto.
Qed.

Local Abbreviation placed :=
  (placed_rows frame_w frame_h left_ top_ right_).

Lemma place_row_step crop k out :
  length crop = Z.to_nat (crop_w * crop_h) ->
  0 <= k < crop_h -> placed crop k out ->
  exists out', place_row frame_w left_ top_ crop_w crop k out = Ok out'
               /\ placed crop (k + 1) out'.
Proof.
  intros Hcrop Hk (Hlen & Hpix). unfold place_row.
  assert (Hcw : 0 < crop_w) by lia.
  assert (Harea : k * crop_w + crop_w <= crop_w * crop_h) by nia.
  destruct (memcpy_spec out ((top_ + k) * frame_w + left_) crop
              (k * crop_w) crop_w)
    as (out' & Hcopy & Hlen' & Hget); try nia.
  exists out'. split; [exact Hcopy|]. split; [congruence|].
  intros x y Hx Hy. rewrite Hget by nia. rewrite Hpix by assumption.
  destruct (Z.compare_spec y (top_ + k)) as [->|Hlt|Hgt].
  - (* the row just written *)
    destruct (Z.leb_spec left_ x), (Z.ltb_spec x right_),
      (Z.leb_spec top_ (top_ + k)), (Z.ltb_spec (top_ + k) (top_ + (k + 1))),
      (Z.ltb_spec (top_ + k) (top_ + k)),
      (Z.leb_spec ((top_ + k) * frame_w + left_) ((top_ + k) * frame_w + x)),
      (Z.ltb_spec ((top_ + k) * frame_w + x)
                  ((top_ + k) * frame_w + left_ + (right_ - left_)));
      cbn [andb]; try lia; try reflexivity.
    f_equal. f_equal. lia.
  - (* a row above: before the copied range *)
    assert (y * frame_w + frame_w <= (top_ + k) * frame_w) by nia.
    destruct (Z.leb_spec ((top_ + k) * frame_w + left_) (y * frame_w + x));
      [lia|]. cbn [andb].
    destruct (Z.ltb_spec y (top_ + k)), (Z.ltb_spec y (top_ + (k + 1)));
      try lia. reflexivity.
  - (* a row below: after the copied range *)
    assert ((top_ + k) * frame_w + frame_w <= y * frame_w) by nia.
    destruct (Z.ltb_spec (y * frame_w + x)
                ((top_ + k) * frame_w + left_ + (right_ - left_))); [lia|].
    rewrite andb_false_r.
    destruct (Z.ltb_spec y (top_ + k)), (Z.ltb_spec y (top_ + (k + 1)));
      try lia. reflexivity.
Qed.

Lemma place_region_spec crop :
  length crop = Z.to_nat (crop_w * crop_h) ->
  exists out,
    place_region frame_w left_ top_ crop_w crop_h crop
                 (zero_canvas (frame_w * frame_h)) = Ok out
    /\ length out = length canvas
    /\ forall x y, 0 <= x < frame_w -> 0 <= y < frame_h ->
         out !! Z.to_nat (y * frame_w + x)
         = if (left_ <=? x) && (x <? right_) && (top_ <=? y) && (y <? bottom_)
           then crop !! Z.to_nat ((y - top_) * crop_w + (x - left_))
           else Some 0.
Proof.
  intros Hcrop. unfold place_region.
  destruct (for_each_counted (place_row frame_w left_ top_ crop_w crop)
              (placed crop) crop_h (zero_canvas (frame_w * frame_h)))
    as (out & Hrun & Hlen & Hpix).
  - lia.
  - split; [apply length_replicate|].
    intros x y Hx Hy.
    destruct (Z.ltb_spec y (top_ + 0)), (Z.leb_spec top_ y); try lia;
      rewrite ?andb_false_r; apply lookup_replicate_2;
      apply canvas_index_in_range; assumption.
  - intros k out Hk Hout. apply place_row_step; assumption.
  - exists out. split; [exact Hrun|]. split; [congruence|].
    intros x y Hx Hy. rewrite Hpix by assumption.
    replace (top_ + crop_h) with bottom_ by lia. reflexivity.
Qed.
End CropRoundTrip.

(** C9: for a canvas of [frame_w * frame_h] pixels and a non-empty bounding
    box inside it, the crop loop fills the [(right - left) x (bottom - top)]
    bitmap row by row and leaves the canvas buffer as it was; copying that
    bitmap back at [(left, top)] onto a zeroed canvas of the same size gives
    a canvas equal to the original at every pixel of the box and zero at
    every other pixel. *)
Theorem crop_round_trip
        (frame_w frame_h left_ top_ right_ bottom_ : Z) (canvas bmp : list Z) :
  length canvas = Z.to_nat (frame_w * frame_h) ->
  0 <= left_ /\ left_ < right_ /\ right_ <= frame_w ->
  0 <= top_ /\ top_ < bottom_ /\ bottom_ <= frame_h ->
  length bmp = Z.to_nat ((right_ - left_) * (bottom_ - top_)) ->
  exists crop out,
    crop_loop frame_w left_ top_ (right_ - left_) (bottom_ - top_)
              (Buffers canvas bmp)
    = Ok (Buffers canvas crop)
    /\ length crop = Z.to_nat ((right_ - left_) * (bottom_ - top_))
    /\ place_region frame_w left_ top_ (right_ - left_) (bottom_ - top_)
                    crop (zero_canvas (frame_w * frame_h))
       = Ok out
    /\ length out = length canvas
    /\ forall x y, 0 <= x < frame_w -> 0 <= y < frame_h ->
         out !! Z.to_nat (y * frame_w + x)
         = if (left_ <=? x) && (x <? right_) && (top_ <=? y) && (y <? bottom_)
           then canvas !! Z.to_nat (y * frame_w + x)
           else Some 0.
Proof.
  intros Hsize Hx Hy Hbmp.
  destruct (crop_loop_spec frame_w frame_h left_ top_ right_ bottom_ canvas
              Hsize Hx Hy bmp Hbmp) as (crop & Hcrop & Hlen & Hrows).
  destruct (place_region_spec frame_w frame_h left_ top_ right_ bottom_ canvas
              Hsize Hx Hy crop Hlen) as (out & Hplace & Hlen' & Hpix).
  exists crop, out. repeat (split; [assumption|]).
  intros x y Hxr Hyr. rewrite Hpix by assumption.
  destruct (Z.leb_spec left_ x), (Z.ltb_spec x right_),
    (Z.leb_spec top_ y), (Z.ltb_spec y bottom_); cbn [andb]; try reflexivity.
  rewrite Hrows by lia. f_equal. f_equal. lia.
Qed.

Lemma crop_round_trip_witness :
  exists crop out,
    crop_loop 3 1 0 (3 - 1) (2 - 0) (Buffers [1; 2; 3; 4; 5; 6] [0; 0; 0; 0])
    = Ok (Buffers [1; 2; 3; 4; 5; 6] crop)
    /\ length crop = Z.to_nat ((3 - 1) * (2 - 0))
    /\ place_region 3 1 0 (3 - 1) (2 - 0) crop (zero_canvas (3 * 2)) = Ok out
    /\ length out = length [1; 2; 3; 4; 5; 6]
    /\ forall x y, 0 <= x < 3 -> 0 <= y < 2 ->
         out !! Z.to_nat (y * 3 + x)
         = if (1 <=? x) && (x <? 3) && (0 <=? y) && (y <? 2)
           then [1; 2; 3; 4; 5; 6] !! Z.to_nat (y * 3 + x)
           else Some 0.
Proof.
  apply (crop_round_trip 3 2 1 0 3 2 [1; 2; 3; 4; 5; 6] [0; 0; 0; 0]);
    [reflexivity | lia | lia | reflexivity].
Defined.

(** ** The compositor, pixel by pixel *)

Ltac bool_cases :=
  repeat match goal with
         | |- context [?a =? ?b] => destruct (Z.eqb_spec a b)
         | |- context [?a <=? ?b] => destruct (Z.leb_spec a b)
         | |- context [?a <? ?b] => destruct (Z.ltb_spec a b)
         | |- context [?a >=? ?b] => rewrite (Z.geb_leb a b)
         | |- context [?a >? ?b] => rewrite (Z.gtb_ltb a b)
         end;
  cbn [andb orb negb].

Lemma canvas_index_inj canvas_w X Y X' Y' :
  0 <= X < canvas_w -> 0 <= X' < canvas_w -> 0 <= Y -> 0 <= Y' ->
  Z.to_nat (Y * canvas_w + X) = Z.to_nat (Y' * canvas_w + X') ->
  X = X' /\ Y = Y'.
Proof.
  intros HX HX' HY HY' Heq.
  apply Z2Nat.inj in Heq; [|nia|nia].
  assert (Y = Y') by nia. subst. lia.
Qed.

Lemma fmap_unchanged (f : Z -> Z) (o : option Z) :
  (forall p, f p = p) -> f <$> o = o.
Proof. intros Hf. destruct o as [p|]; cbn; [rewrite Hf|]; reflexivity. Qed.

Lemma pointwise_refl canvas_w canvas_h f pixels :
  (forall X Y p, 0 <= X < canvas_w -> 0 <= Y < canvas_h -> f X Y p = p) ->
  pointwise canvas_w canvas_h f pixels pixels.
Proof.
  intros Hf. split; [reflexivity|]. intros X Y HX HY.
  destruct (pixels !! _) as [p|]; cbn; [|reflexivity]. rewrite Hf; auto.
Qed.

Lemma pointwise_ext canvas_w canvas_h f g pixels later :
  (forall X Y p, 0 <= X < canvas_w -> 0 <= Y < canvas_h -> f X Y p = g X Y p) ->
  pointwise canvas_w canvas_h f pixels later ->
  pointwise canvas_w canvas_h g pixels later.
Proof.
  intros Hfg [Hlen Hf]. split; [exact Hlen|]. intros X Y HX HY.
  rewrite Hf by assumption.
  destruct (pixels !! _) as [p|]; cbn; [|reflexivity]. rewrite Hfg; auto.
Qed.

Lemma pointwise_trans canvas_w canvas_h f g pixels mid later :
  pointwise canvas_w canvas_h f pixels mid ->
  pointwise canvas_w canvas_h g mid later ->
  pointwise canvas_w canvas_h (fun X Y p => g X Y (f X Y p)) pixels later.
Proof.
  intros [Hlen1 Hf] [Hlen2 Hg]. split; [congruence|]. intros X Y HX HY.
  rewrite Hg, Hf by assumption.
  destruct (pixels !! _) as [p|]; reflexivity.
Qed.

Section Pointwise.
Context (canvas_w canvas_h : Z).

(** One more column of row [y]: the pixel under column [j] is blended, every
    other pixel is kept. *)
Lemma blend_column_pointwise img y j s :
  length s = Z.to_nat (canvas_w * canvas_h) ->
  bitmap_covers img -> 0 <= y < Img.h img -> 0 <= j < Img.w img ->
  0 <= Img.dst_y img + y < canvas_h ->
  exists s',
    blend_column canvas_w canvas_h img
      (byte_at (Img.color img) 24) (byte_at (Img.color img) 16)
      (byte_at (Img.color img) 8) (byte_at (Img.color img) 0)
      y (Img.dst_y img + y) j s = Ok s'
    /\ pointwise canvas_w canvas_h
         (fun X Y p => if (Y =? Img.dst_y img + y) && (X =? Img.dst_x img + j)
                       then blended img j y p else p)
         s s'.
Proof.
  intros Hlen Hcov Hy Hj Hrow. unfold blend_column.
  destruct ((Img.dst_x img + j <? 0) || (Img.dst_x img + j >=? canvas_w))
    eqn:Hclip.
  { exists s. split; [reflexivity|]. apply pointwise_refl.
    intros X Y p HX HY. apply orb_true_iff in Hclip.
    bool_cases; try reflexivity. lia. }
  apply orb_false_iff in Hclip as [Hx0 Hx1].
  assert (Hx : 0 <= Img.dst_x img + j < canvas_w) by lia.
  destruct (read_bitmap_covered img y j Hcov Hj Hy) as (k & _ & Hread).
  rewrite Hread. cbn [bind].
  set (c := Z.of_N (Byte.to_N k)) in *.
  assert (Hskip : (forall p, blended img j y p = p) ->
            pointwise canvas_w canvas_h
              (fun X Y p => if (Y =? Img.dst_y img + y)
                               && (X =? Img.dst_x img + j)
                            then blended img j y p else p) s s).
  { intros Hid. apply pointwise_refl. intros X Y p _ _.
    destruct (_ && _); auto. }
  destruct (c =? 0) eqn:Hc0.
  { exists s. split; [reflexivity|]. apply Hskip. intros p.
    unfold blended. rewrite Hread. fold c. rewrite Hc0. reflexivity. }
  destruct (final_alpha_of c (byte_at (Img.color img) 0) =? 0) eqn:Hfa0.
  { exists s. split; [reflexivity|]. apply Hskip. intros p.
    unfold blended. rewrite Hread. fold c. rewrite Hc0. cbn zeta.
    rewrite Hfa0. reflexivity. }
  pose proof (canvas_index_in_range _ _ _ _ Hx Hrow) as Hi. rewrite <- Hlen in Hi.
  unfold read_pixel, write_pixel.
  assert (Hin : in_canvas canvas_w canvas_h (Img.dst_x img + j)
                          (Img.dst_y img + y) = true)
    by (apply in_canvas_true; lia).
  rewrite Hin. destruct (lookup_lt_is_Some_2 _ _ Hi) as [p Hp].
  rewrite Hp. cbn [bind]. rewrite (proj2 (Nat.ltb_lt _ _) Hi). cbn [andb].
  eexists. split; [reflexivity|]. split; [apply length_insert|].
  intros X Y HX HY.
  destruct (Z.eq_dec Y (Img.dst_y img + y)) as [->|HYne];
    [destruct (Z.eq_dec X (Img.dst_x img + j)) as [->|HXne]|].
  - rewrite list_lookup_insert_eq by assumption. rewrite Hp. cbn.
    rewrite !Z.eqb_refl. cbn [andb]. f_equal.
    unfold blended. rewrite Hread. fold c. rewrite Hc0. cbn zeta.
    rewrite Hfa0. reflexivity.
  - rewrite list_lookup_insert_ne.
    + symmetry. apply fmap_unchanged. intros q.
      bool_cases; try reflexivity; lia.
    + intros Heq. apply canvas_index_inj in Heq; lia.
  - rewrite list_lookup_insert_ne.
    + symmetry. apply fmap_unchanged. intros q.
      bool_cases; try reflexivity; lia.
    + intros Heq. apply canvas_index_inj in Heq; lia.
Qed.
Ltac pointwise_cases :=
  intros; bool_cases; try reflexivity; try lia; try (f_equal; lia).

(** The column loop of row [y]: the pixels of canvas row [dst_y + y] under
    the fragment are blended, every other pixel is kept. *)
Lemma blend_row_pointwise img y s :
  length s = Z.to_nat (canvas_w * canvas_h) ->
  bitmap_covers img -> 0 <= y < Img.h img ->
  exists s',
    blend_row canvas_w canvas_h img
      (byte_at (Img.color img) 24) (byte_at (Img.color img) 16)
      (byte_at (Img.color img) 8) (byte_at (Img.color img) 0) y s = Ok s'
    /\ pointwise canvas_w canvas_h
         (fun X Y p => if (Y =? Img.dst_y img + y) && (Img.dst_x img <=? X)
                          && (X <? Img.dst_x img + Img.w img)
                       then blended img (X - Img.dst_x img) y p else p)
         s s'.
Proof.
  intros Hlen Hcov Hy. unfold blend_row.
  destruct ((Img.dst_y img + y <? 0) || (Img.dst_y img + y >=? canvas_h))
    eqn:Hclip.
  { exists s. split; [reflexivity|]. apply pointwise_refl.
    apply orb_true_iff in Hclip. revert Hclip. pointwise_cases. }
  apply orb_false_iff in Hclip as [Hy0 Hy1].
  assert (Hrow : 0 <= Img.dst_y img + y < canvas_h) by lia.
  destruct (Z.le_gt_cases (Img.w img) 0) as [Hw|Hw].
  { rewrite seqZ_nil by assumption. exists s. split; [reflexivity|].
    apply pointwise_refl. pointwise_cases. }
  destruct (for_each_counted
              (blend_column canvas_w canvas_h img
                 (byte_at (Img.color img) 24) (byte_at (Img.color img) 16)
                 (byte_at (Img.color img) 8) (byte_at (Img.color img) 0)
                 y (Img.dst_y img + y))
              (fun j t =>
                 pointwise canvas_w canvas_h
                   (fun X Y p => if (Y =? Img.dst_y img + y)
                                    && (Img.dst_x img <=? X)
                                    && (X <? Img.dst_x img + j)
                                 then blended img (X - Img.dst_x img) y p
                                 else p) s t)
              (Img.w img) s) as (s' & Hrun & Hinv); [lia| | |eauto].
  - apply pointwise_refl. pointwise_cases.
  - intros j t Hj Ht.
    destruct (blend_column_pointwise img y j t) as (t' & Hstep & Ht');
      try assumption; [destruct Ht; congruence|].
    exists t'. split; [exact Hstep|].
    eapply pointwise_ext; [|eapply pointwise_trans; [exact Ht|exact Ht']].
    cbn beta. pointwise_cases.
Qed.

(** One fragment: every canvas pixel in its placed extent is blended with
    the bitmap byte that lands on it, every other pixel is kept. *)
Lemma blend_one_pointwise img s :
  length s = Z.to_nat (canvas_w * canvas_h) -> bitmap_covers img ->
  exists s',
    blend_one canvas_w canvas_h img s = Ok s'
    /\ pointwise canvas_w canvas_h (blend_one_at img) s s'.
Proof.
  intros Hlen Hcov. unfold blend_one.
  destruct (Z.le_gt_cases (Img.h img) 0) as [Hh|Hh].
  { rewrite seqZ_nil by assumption. exists s. split; [reflexivity|].
    apply pointwise_refl. unfold blend_one_at, covers_pixel. pointwise_cases. }
  destruct (for_each_counted
              (blend_row canvas_w canvas_h img
                 (byte_at (Img.color img) 24) (byte_at (Img.color img) 16)
                 (byte_at (Img.color img) 8) (byte_at (Img.color img) 0))
              (fun k t =>
                 pointwise canvas_w canvas_h
                   (fun X Y p => if (Img.dst_x img <=? X)
                                    && (X <? Img.dst_x img + Img.w img)
                                    && (Img.dst_y img <=? Y)
                                    && (Y <? Img.dst_y img + k)
                                 then blended img (X - Img.dst_x img)
                                              (Y - Img.dst_y img) p
                                 else p) s t)
              (Img.h img) s) as (s' & Hrun & Hinv); [lia| | |].
  - apply pointwise_refl. pointwise_cases.
  - intros k t Hk Ht.
    destruct (blend_row_pointwise img k t) as (t' & Hstep & Ht');
      try assumption; [destruct Ht; congruence|].
    exists t'. split; [exact Hstep|].
    eapply pointwise_ext; [|eapply pointwise_trans; [exact Ht|exact Ht']].
    cbn beta. pointwise_cases.
  - exists s'. split; [exact Hrun|].
    eapply pointwise_ext; [|exact Hinv].
    unfold blend_one_at, covers_pixel. reflexivity.
Qed.

(** A chain: every pixel is folded through the fragments that cover it. *)
Lemma blend_chain_pointwise (pixels : list Z) (img_list : ASS_Image_list) :
  length pixels = Z.to_nat (canvas_w * canvas_h) ->
  (forall img, img ∈ img_list -> bitmap_covers img) ->
  exists pixels',
    blend_ass_image canvas_w canvas_h pixels img_list = Ok pixels'
    /\ pointwise canvas_w canvas_h (blend_chain_at img_list) pixels pixels'.
Proof.
  revert pixels. unfold blend_ass_image.
  induction img_list as [|img l IH]; intros pixels Hlen Hcov.
  - exists pixels. split; [reflexivity|]. apply pointwise_refl. reflexivity.
  - destruct (blend_one_pointwise img pixels Hlen) as (mid & Hone & Hmid);
      [apply Hcov, elem_of_cons; auto|].
    destruct (IH mid) as (final & Hrest & Hfinal);
      [destruct Hmid; congruence | intros g Hg; apply Hcov, elem_of_cons; auto |].
    exists final. cbn [for_each]. rewrite Hone. cbn [bind].
    split; [exact Hrest|].
    eapply pointwise_ext; [|eapply pointwise_trans; [exact Hmid|exact Hfinal]].
    reflexivity.
Qed.
End Pointwise.

(** X1: the compositor is a fold per pixel. On a canvas of
    [canvas_w * canvas_h] pixels and a chain whose bitmaps hold the rows
    that are read, [blend_ass_image] returns a canvas of the same size in
    which the pixel at every coordinate [(X, Y)] is [blend_chain_at] of the
    old pixel at [(X, Y)]: the fragments that cover [(X, Y)] are applied to
    it in chain order, each with the one bitmap byte that lands on it, and
    no other pixel or byte has any influence. *)
Theorem blend_ass_image_is_a_fold_per_pixel
        (canvas_w canvas_h : Z) (pixels : list Z) (img_list : ASS_Image_list) :
  length pixels = Z.to_nat (canvas_w * canvas_h) ->
  (forall img, img ∈ img_list -> bitmap_covers img) ->
  exists pixels',
    blend_ass_image canvas_w canvas_h pixels img_list = Ok pixels'
    /\ length pixels' = length pixels
    /\ forall X Y, 0 <= X < canvas_w -> 0 <= Y < canvas_h ->
         pixels' !! Z.to_nat (Y * canvas_w + X)
         = blend_chain_at img_list X Y
             <$> pixels !! Z.to_nat (Y * canvas_w + X).
Proof.
  intros Hlen Hcov.
  destruct (blend_chain_pointwise canvas_w canvas_h pixels img_list Hlen Hcov)
    as (pixels' & Hrun & Hlen' & Hpix).
  exists pixels'. auto.
Qed.

Lemma bitmap_covers_chain_of_one_pixel (l : ASS_Image_list) :
  Forall (fun img => Img.w img = 1 /\ Img.h img = 1 /\ Img.stride img = 1
                     /\ length (Img.bitmap img) = 1%nat) l ->
  forall img, img ∈ l -> bitmap_covers img.
Proof.
  intros Hall img Himg. rewrite Forall_forall in Hall.
  destruct (Hall img Himg) as (Hw & Hh & Hs & Hb).
  intros x y Hx Hy. rewrite Hw in Hx. rewrite Hh in Hy. rewrite Hs, Hb. lia.
Qed.

Lemma blend_ass_image_is_a_fold_per_pixel_witness :
  exists pixels',
    blend_ass_image 1 1 (zero_canvas 1) [half_red; half_blue] = Ok pixels'
    /\ length pixels' = length (zero_canvas 1)
    /\ forall X Y, 0 <= X < 1 -> 0 <= Y < 1 ->
         pixels' !! Z.to_nat (Y * 1 + X)
         = blend_chain_at [half_red; half_blue] X Y
             <$> zero_canvas 1 !! Z.to_nat (Y * 1 + X).
Proof.
  apply (blend_ass_image_is_a_fold_per_pixel 1 1 (zero_canvas 1)
           [half_red; half_blue]); [reflexivity|].
  apply bitmap_covers_chain_of_one_pixel.
  repeat constructor.
Defined.

(** ** The bounding box and the composite *)

Lemma bbox_step_grows acc img : box_within acc (bbox_step acc img).
Proof.
  rewrite bbox_step_fold_box. destruct acc as [[[l t] r] b].
  destruct (positive_size img); unfold box_within, fold_box, int_extent; lia.
Qed.

Lemma box_within_trans a b c : box_within a b -> box_within b c -> box_within a c.
Proof.
  destruct a as [[[? ?] ?] ?], b as [[[? ?] ?] ?], c as [[[? ?] ?] ?].
  unfold box_within. lia.
Qed.

Lemma box_within_refl a : box_within a a.
Proof. destruct a as [[[? ?] ?] ?]. unfold box_within. lia. Qed.

Lemma bbox_fold_grows img_list acc :
  box_within acc (fold_left bbox_step img_list acc).
Proof.
  revert acc. induction img_list as [|img l IH]; intros acc; simpl.
  - apply box_within_refl.
  - eapply box_within_trans; [apply bbox_step_grows | apply IH].
Qed.

(** The running rectangle holds the placed extent of every fragment of
    positive size met so far. *)
Lemma bbox_fold_holds_extent img_list acc img :
  img ∈ img_list -> positive_size img = true -> extent_fits img ->
  box_within (placed_extent img) (fold_left bbox_step img_list acc).
Proof.
  revert acc. induction img_list as [|g l IH]; intros acc Hin Hpos Hfit.
  - inversion Hin.
  - cbn [fold_left]. apply elem_of_cons in Hin as [->|Hin]; [|apply IH; assumption].
    eapply box_within_trans; [|apply bbox_fold_grows].
    rewrite bbox_step_fold_extent, Hpos by auto.
    destruct acc as [[[l0 t0] r0] b0].
    unfold box_within, fold_extent, placed_extent. lia.
Qed.

Lemma covers_pixel_positive_size img X Y :
  covers_pixel img X Y = true -> positive_size img = true.
Proof.
  unfold covers_pixel, positive_size. rewrite !andb_true_iff. lia.
Qed.

(** Every canvas pixel covered by a fragment of the chain whose sums fit
    lies in the rectangle of [compute_bounding_box]. *)
Lemma covered_pixel_in_bounding_box img_list canvas_w canvas_h img X Y :
  img ∈ img_list -> extent_fits img -> covers_pixel img X Y = true ->
  0 <= X < canvas_w -> 0 <= Y < canvas_h ->
  in_box (compute_bounding_box img_list canvas_w canvas_h) X Y = true.
Proof.
  intros Hin Hfit Hcov HX HY.
  pose proof (bbox_fold_holds_extent img_list (canvas_w, canvas_h, 0, 0) img Hin
                (covers_pixel_positive_size img X Y Hcov) Hfit) as Hbox.
  unfold compute_bounding_box, bbox_loop.
  destruct (fold_left bbox_step img_list (canvas_w, canvas_h, 0, 0))
    as [[[l t] r] b].
  unfold box_within, placed_extent in Hbox. unfold covers_pixel in Hcov.
  rewrite !andb_true_iff in Hcov. unfold in_box. rewrite !andb_true_iff.
  rewrite !Z.gtb_ltb.
  destruct (Z.ltb_spec l 0), (Z.ltb_spec t 0),
    (Z.ltb_spec canvas_w r), (Z.ltb_spec canvas_h b); lia.
Qed.

Lemma blend_chain_at_uncovered img_list X Y p :
  (forall img, img ∈ img_list -> covers_pixel img X Y = false) ->
  blend_chain_at img_list X Y p = p.
Proof.
  unfold blend_chain_at. revert p.
  induction img_list as [|img l IH]; intros p Hnone; simpl; [reflexivity|].
  unfold blend_one_at at 2. rewrite (Hnone img) by (apply elem_of_cons; auto).
  apply IH. intros g Hg. apply Hnone, elem_of_cons. auto.
Qed.

(** The sums of each listed fragment fit in an [int], by computing them. *)
Ltac extents_fit H :=
  repeat (apply elem_of_cons in H as [->|H];
          [split; unfold fits_int; simpl; lia|]);
  inversion H.

(** X2: the crop loses nothing. For a chain whose fragments of positive
    size have sums [dst_x + w], [dst_y + h] that fit in an [int],
    compositing changes no canvas pixel outside the rectangle
    [compute_bounding_box] returns for that chain: on the zeroed canvas of
    [nativeRenderFrame] every pixel outside the bounding box is still zero
    after [blend_ass_image]. *)
Theorem composite_unchanged_outside_bounding_box
        (canvas_w canvas_h : Z) (pixels : list Z) (img_list : ASS_Image_list) :
  length pixels = Z.to_nat (canvas_w * canvas_h) ->
  (forall img, img ∈ img_list -> bitmap_covers img) ->
  (forall img, img ∈ img_list -> positive_size img = true -> extent_fits img) ->
  exists pixels',
    blend_ass_image canvas_w canvas_h pixels img_list = Ok pixels'
    /\ length pixels' = length pixels
    /\ forall X Y, 0 <= X < canvas_w -> 0 <= Y < canvas_h ->
         in_box (compute_bounding_box img_list canvas_w canvas_h) X Y = false ->
         pixels' !! Z.to_nat (Y * canvas_w + X)
         = pixels !! Z.to_nat (Y * canvas_w + X).
Proof.
  intros Hlen Hcov Hfit.
  destruct (blend_chain_pointwise canvas_w canvas_h pixels img_list Hlen Hcov)
    as (pixels' & Hrun & Hlen' & Hpix).
  exists pixels'. split; [exact Hrun|]. split; [exact Hlen'|].
  intros X Y HX HY Hout. rewrite Hpix by assumption.
  apply fmap_unchanged. intros p. apply blend_chain_at_uncovered.
  intros img Himg. destruct (covers_pixel img X Y) eqn:Hc; [|reflexivity].
  pose proof (covered_pixel_in_bounding_box img_list canvas_w canvas_h img X Y
                Himg (Hfit img Himg (covers_pixel_positive_size img X Y Hc))
                Hc HX HY) as Hin.
  congruence.
Qed.

Lemma composite_unchanged_outside_bounding_box_witness :
  exists pixels',
    blend_ass_image 2 1 (zero_canvas 2) [half_red; half_blue] = Ok pixels'
    /\ length pixels' = length (zero_canvas 2)
    /\ forall X Y, 0 <= X < 2 -> 0 <= Y < 1 ->
         in_box (compute_bounding_box [half_red; half_blue] 2 1) X Y = false ->
         pixels' !! Z.to_nat (Y * 2 + X) = zero_canvas 2 !! Z.to_nat (Y * 2 + X).
Proof.
  apply (composite_unchanged_outside_bounding_box 2 1 (zero_canvas 2)
           [half_red; half_blue]); [reflexivity| |].
  - apply bitmap_covers_chain_of_one_pixel. repeat constructor.
  - intros img Himg _. extents_fit Himg.
Defined.

(** X3: the bounding box does not depend on the order of the chain: two
    chains that are permutations of each other get the same rectangle. *)
Theorem compute_bounding_box_ignores_order
        (img_list img_list' : ASS_Image_list) (canvas_w canvas_h : Z) :
  img_list ≡ₚ img_list' ->
  compute_bounding_box img_list canvas_w canvas_h
  = compute_bounding_box img_list' canvas_w canvas_h.
Proof.
  intros Hperm. unfold compute_bounding_box, bbox_loop.
  enough (Hfold : forall acc,
             fold_left bbox_step img_list acc = fold_left bbox_step img_list' acc)
    by (rewrite Hfold; reflexivity).
  induction Hperm as [|img l l' _ IH|f g l|l l' l'' _ IH1 _ IH2]; intros acc; simpl.
  - reflexivity.
  - apply IH.
  - rewrite bbox_step_comm. reflexivity.
  - rewrite IH1. apply IH2.
Qed.

Lemma compute_bounding_box_ignores_order_witness :
  compute_bounding_box [blank_2x2; half_red_right; zero_width] 4 4
  = compute_bounding_box [zero_width; blank_2x2; half_red_right] 4 4.
Proof.
  apply (compute_bounding_box_ignores_order
           [blank_2x2; half_red_right; zero_width]
           [zero_width; blank_2x2; half_red_right] 4 4).
  change ([blank_2x2; half_red_right] ++ [zero_width]
          ≡ₚ [zero_width] ++ [blank_2x2; half_red_right]).
  apply Permutation_app_comm.
Defined.

(** X4: a further fragment can only enlarge the bounding box: the rectangle
    of a chain lies within the rectangle of the chain with one more fragment
    put anywhere in it ([left] and [top] not larger, [right] and [bottom] not
    smaller). *)
Theorem compute_bounding_box_grows
        (pre post : ASS_Image_list) (img : Img.t) (canvas_w canvas_h : Z) :
  box_within (compute_bounding_box (pre ++ post) canvas_w canvas_h)
             (compute_bounding_box (pre ++ img :: post) canvas_w canvas_h).
Proof.
  unfold compute_bounding_box. rewrite bbox_loop_insert.
  pose proof (bbox_step_grows (bbox_loop (pre ++ post) canvas_w canvas_h) img)
    as Hgrow.
  destruct (bbox_loop (pre ++ post) canvas_w canvas_h) as [[[l t] r] b].
  destruct (bbox_step (l, t, r, b) img) as [[[l' t'] r'] b'].
  unfold box_within in *. rewrite !Z.gtb_ltb.
  destruct (Z.ltb_spec l 0), (Z.ltb_spec t 0), (Z.ltb_spec canvas_w r),
    (Z.ltb_spec canvas_h b), (Z.ltb_spec l' 0), (Z.ltb_spec t' 0),
    (Z.ltb_spec canvas_w r'), (Z.ltb_spec canvas_h b'); lia.
Qed.

(** ** Fragments that leave no trace, fragments that do not interact *)

(** A fragment none of whose pixels falls on the canvas is never read. *)
Lemma blend_one_off_canvas canvas_w canvas_h img pixels :
  (forall x y, 0 <= x < Img.w img -> 0 <= y < Img.h img ->
     in_canvas canvas_w canvas_h (Img.dst_x img + x) (Img.dst_y img + y) = false) ->
  blend_one canvas_w canvas_h img pixels = Ok pixels.
Proof.
  intros Hoff. unfold blend_one.
  apply for_each_unchanged. intros y Hy. apply elem_of_seqZ in Hy.
  unfold blend_row.
  destruct ((Img.dst_y img + y <? 0) || (Img.dst_y img + y >=? canvas_h))
    eqn:Hrow; [reflexivity|].
  apply for_each_unchanged. intros x Hx. apply elem_of_seqZ in Hx.
  unfold blend_column.
  destruct ((Img.dst_x img + x <? 0) || (Img.dst_x img + x >=? canvas_w))
    eqn:Hcol; [reflexivity|].
  exfalso. specialize (Hoff x y ltac:(lia) ltac:(lia)).
  apply orb_false_iff in Hrow as [? ?]. apply orb_false_iff in Hcol as [? ?].
  apply not_true_iff_false in Hoff. apply Hoff, in_canvas_true. lia.
Qed.

Lemma final_alpha_of_transparent_tint c : 0 <= c <= 255 -> final_alpha_of c 255 = 0.
Proof.
  intros Hc. rewrite final_alpha_of_exact by lia.
  replace (c * (255 - 255)) with 0 by lia. reflexivity.
Qed.

(** A fragment whose every byte has effective alpha zero is a no-op. *)
Lemma blend_one_invisible canvas_w canvas_h img pixels :
  bitmap_covers img ->
  (forall k, k ∈ Img.bitmap img ->
     final_alpha_of (Z.of_N (Byte.to_N k)) (byte_at (Img.color img) 0) = 0) ->
  blend_one canvas_w canvas_h img pixels = Ok pixels.
Proof.
  intros Hcov Hinv. unfold blend_one.
  apply for_each_unchanged. intros y Hy. apply elem_of_seqZ in Hy.
  unfold blend_row. destruct (_ || _); [reflexivity|].
  apply for_each_unchanged. intros x Hx. apply elem_of_seqZ in Hx.
  unfold blend_column. destruct (_ || _); [reflexivity|].
  destruct (read_bitmap_covered img y x Hcov) as (k & Hk & ->); [lia|lia|].
  cbn [bind]. destruct (_ =? 0); [reflexivity|].
  rewrite (Hinv k) by (apply list_elem_of_lookup; eauto). reflexivity.
Qed.

Lemma blend_chain_drop canvas_w canvas_h pixels pre img post :
  (forall s, blend_one canvas_w canvas_h img s = Ok s) ->
  blend_ass_image canvas_w canvas_h pixels (pre ++ img :: post)
  = blend_ass_image canvas_w canvas_h pixels (pre ++ post).
Proof.
  intros Hnoop. unfold blend_ass_image. rewrite !for_each_app.
  destruct (for_each _ pre pixels) as [s|e]; cbn [bind for_each]; [|reflexivity].
  rewrite Hnoop. reflexivity.
Qed.

(** X5: a fragment none of whose pixels falls on the canvas (a degenerate
    one, with non-positive width or height, or one placed wholly outside)
    is skipped without a single read of its bitmap: with any bitmap, even an
    empty one, dropping it from any place of any chain gives the same result
    of [blend_ass_image], and alone it returns the canvas as it was. *)
Theorem off_canvas_fragment_is_never_read
        (canvas_w canvas_h : Z) (pixels : list Z)
        (pre post : ASS_Image_list) (img : Img.t) :
  (forall x y, 0 <= x < Img.w img -> 0 <= y < Img.h img ->
     in_canvas canvas_w canvas_h (Img.dst_x img + x) (Img.dst_y img + y) = false) ->
  blend_ass_image canvas_w canvas_h pixels (pre ++ img :: post)
  = blend_ass_image canvas_w canvas_h pixels (pre ++ post)
  /\ blend_ass_image canvas_w canvas_h pixels [img] = Ok pixels.
Proof.
  intros Hoff. split.
  - apply blend_chain_drop. intros s. apply blend_one_off_canvas, Hoff.
  - unfold blend_ass_image. cbn [for_each].
    rewrite blend_one_off_canvas by exact Hoff. reflexivity.
Qed.

Lemma off_canvas_fragment_is_never_read_witness :
  blend_ass_image 4 4 (zero_canvas 16) ([half_red] ++ off_canvas :: [half_blue])
  = blend_ass_image 4 4 (zero_canvas 16) ([half_red] ++ [half_blue])
  /\ blend_ass_image 4 4 (zero_canvas 16) [off_canvas] = Ok (zero_canvas 16).
Proof.
  apply (off_canvas_fragment_is_never_read 4 4 (zero_canvas 16)
           [half_red] [half_blue] off_canvas).
  intros x y Hx Hy. simpl in *. unfold in_canvas.
  destruct (Z.leb_spec 0 (-5 + x)); [lia|]. reflexivity.
Defined.

(** X6: a fragment is invisible when no byte of its bitmap has a non-zero
    effective alpha [coverage * (255 - a) / 255], in particular when its
    tint is fully transparent ([a = 255]): dropping it from any place of any
    chain gives the same result of [blend_ass_image]. *)
Theorem invisible_fragment_is_a_no_op
        (canvas_w canvas_h : Z) (pixels : list Z)
        (pre post : ASS_Image_list) (img : Img.t) :
  bitmap_covers img ->
  byte_at (Img.color img) 0 = 255
  \/ (forall k, k ∈ Img.bitmap img ->
        Z.of_N (Byte.to_N k) * (255 - byte_at (Img.color img) 0) < 255) ->
  blend_ass_image canvas_w canvas_h pixels (pre ++ img :: post)
  = blend_ass_image canvas_w canvas_h pixels (pre ++ post).
Proof.
  intros Hcov Hinv. apply blend_chain_drop. intros s.
  apply blend_one_invisible; [exact Hcov|].
  intros k Hk. pose proof (byte_to_Z_range k) as Hr.
  pose proof (byte_at_range (Img.color img) 0) as Ha.
  destruct Hinv as [Ha255|Hsmall].
  - rewrite Ha255. apply final_alpha_of_transparent_tint. exact Hr.
  - rewrite final_alpha_of_exact by assumption.
    apply Z.div_small. split; [nia|auto].
Qed.

Lemma invisible_fragment_is_a_no_op_witness :
  blend_ass_image 1 1 (zero_canvas 1) ([half_red] ++ clear_tint :: [half_blue])
  = blend_ass_image 1 1 (zero_canvas 1) ([half_red] ++ [half_blue])
  /\ blend_ass_image 1 1 (zero_canvas 1) ([half_red] ++ faint_on_faint :: [half_blue])
     = blend_ass_image 1 1 (zero_canvas 1) ([half_red] ++ [half_blue]).
Proof.
  split.
  - apply (invisible_fragment_is_a_no_op 1 1 (zero_canvas 1)
             [half_red] [half_blue] clear_tint).
    + apply bitmap_covers_one_pixel.
    + left. reflexivity.
  - apply (invisible_fragment_is_a_no_op 1 1 (zero_canvas 1)
             [half_red] [half_blue] faint_on_faint).
    + apply bitmap_covers_one_pixel.
    + right. intros k Hk. simpl in Hk. apply list_elem_of_singleton in Hk.
      subst k. vm_compute. reflexivity.
Defined.

(** Two canvases that are the same pixel-wise image of a canvas are equal. *)
Lemma pointwise_unique canvas_w canvas_h f g pixels a b :
  0 <= canvas_w -> 0 <= canvas_h ->
  length pixels = Z.to_nat (canvas_w * canvas_h) ->
  (forall X Y p, 0 <= X < canvas_w -> 0 <= Y < canvas_h -> f X Y p = g X Y p) ->
  pointwise canvas_w canvas_h f pixels a ->
  pointwise canvas_w canvas_h g pixels b ->
  a = b.
Proof.
  intros Hw Hh Hlen Hfg [Hla Ha] [Hlb Hb]. apply list_eq. intros i.
  destruct (Nat.lt_ge_cases i (length pixels)) as [Hi|Hi].
  - assert (Hpos : 0 < canvas_w) by nia.
    assert (Hi' : 0 <= Z.of_nat i < canvas_w * canvas_h) by lia.
    pose proof (Z.div_mod (Z.of_nat i) canvas_w ltac:(lia)) as Hdm.
    pose proof (Z.mod_pos_bound (Z.of_nat i) canvas_w Hpos) as HX.
    assert (HY : 0 <= Z.of_nat i / canvas_w < canvas_h).
    { split; [apply Z.div_pos; lia|].
      apply Z.div_lt_upper_bound; lia. }
    replace i with (Z.to_nat (Z.of_nat i / canvas_w * canvas_w
                              + Z.of_nat i mod canvas_w)) by lia.
    rewrite Ha, Hb by assumption.
    destruct (pixels !! _) as [p|]; cbn; [|reflexivity].
    rewrite Hfg by assumption. reflexivity.
  - rewrite !(proj2 (lookup_ge_None _ _)) by lia. reflexivity.
Qed.

Lemma blend_one_at_comm f g X Y p :
  covers_pixel f X Y && covers_pixel g X Y = false ->
  blend_one_at g X Y (blend_one_at f X Y p)
  = blend_one_at f X Y (blend_one_at g X Y p).
Proof.
  unfold blend_one_at.
  destruct (covers_pixel f X Y), (covers_pixel g X Y); cbn [andb];
    intros H; try discriminate; reflexivity.
Qed.

(** X7: two neighbours of the chain that share no canvas pixel can be
    swapped: the composite is the same (where they overlap the order
    matters). *)
Theorem disjoint_fragments_commute
        (canvas_w canvas_h : Z) (pixels : list Z)
        (pre post : ASS_Image_list) (f g : Img.t) :
  0 <= canvas_w -> 0 <= canvas_h ->
  length pixels = Z.to_nat (canvas_w * canvas_h) ->
  (forall img, img ∈ pre ++ f :: g :: post -> bitmap_covers img) ->
  (forall X Y, 0 <= X < canvas_w -> 0 <= Y < canvas_h ->
     covers_pixel f X Y && covers_pixel g X Y = false) ->
  blend_ass_image canvas_w canvas_h pixels (pre ++ f :: g :: post)
  = blend_ass_image canvas_w canvas_h pixels (pre ++ g :: f :: post).
Proof.
  intros Hw Hh Hlen Hcov Hdisj.
  destruct (blend_chain_pointwise canvas_w canvas_h pixels
              (pre ++ f :: g :: post) Hlen Hcov) as (a & Ha & Hpa).
  destruct (blend_chain_pointwise canvas_w canvas_h pixels
              (pre ++ g :: f :: post) Hlen) as (b & Hb & Hpb).
  { intros img Himg. apply Hcov.
    rewrite !elem_of_app, !elem_of_cons in *. tauto. }
  rewrite Ha, Hb. f_equal.
  eapply pointwise_unique; [exact Hw|exact Hh|exact Hlen| |exact Hpa|exact Hpb].
  intros X Y p HX HY. unfold blend_chain_at.
  rewrite !fold_left_app. cbn [fold_left].
  rewrite blend_one_at_comm by (apply Hdisj; assumption). reflexivity.
Qed.

Lemma disjoint_fragments_commute_witness :
  blend_ass_image 2 1 (zero_canvas 2) ([half_blue] ++ half_red :: half_red_right :: [])
  = blend_ass_image 2 1 (zero_canvas 2) ([half_blue] ++ half_red_right :: half_red :: []).
Proof.
  apply (disjoint_fragments_commute 2 1 (zero_canvas 2) [half_blue] []
           half_red half_red_right); [lia|lia|reflexivity| |].
  - apply bitmap_covers_chain_of_one_pixel. repeat constructor.
  - intros X Y HX HY. unfold covers_pixel. simpl.
    destruct (Z.leb_spec 1 X), (Z.ltb_spec X 1); try lia;
      rewrite ?andb_false_r; reflexivity.
Defined.

(** ** Source-over on the extreme alphas *)

Lemma spec_channel_on_transparent c fa dc :
  0 < fa -> spec_channel c fa dc 0 fa = c.
Proof.
  intros Hfa. unfold spec_channel.
  replace (dc * 0 * (255 - fa)) with 0 by lia.
  rewrite Z.div_0_l, Z.add_0_r by lia. apply Z.div_mul. lia.
Qed.

Lemma spec_channel_on_opaque c fa dc :
  0 <= c <= 255 -> 0 <= fa <= 255 -> 0 <= dc <= 255 ->
  spec_channel c fa dc 255 255 = (c * fa + dc * (255 - fa)) / 255
  /\ 0 <= (c * fa + dc * (255 - fa)) / 255 <= 255.
Proof.
  intros Hc Hfa Hdc. unfold spec_channel.
  replace (dc * 255 * (255 - fa)) with (dc * (255 - fa) * 255) by lia.
  rewrite Z.div_mul by lia. split; [reflexivity|].
  split; [apply Z.div_pos; nia | apply Z.div_le_upper_bound; nia].
Qed.

Lemma spec_channel_of_opaque_source c dc da :
  0 <= dc <= 255 -> 0 <= da <= 255 -> spec_channel c 255 dc da 255 = c.
Proof.
  intros Hdc Hda. unfold spec_channel.
  replace (dc * da * (255 - 255)) with 0 by lia.
  rewrite Z.div_0_l, Z.add_0_r by lia. apply Z.div_mul. lia.
Qed.

(** The pixel written when every stored channel is known. *)
Lemma source_over_channels r g b fa p oa cr cg cb :
  0 <= r <= 255 -> 0 <= g <= 255 -> 0 <= b <= 255 -> 0 <= fa <= 255 ->
  out_alpha fa (alpha_of p) = oa -> oa <> 0 ->
  spec_channel r fa (byte_at p 16) (alpha_of p) oa = cr -> 0 <= cr <= 255 ->
  spec_channel g fa (byte_at p 8) (alpha_of p) oa = cg -> 0 <= cg <= 255 ->
  spec_channel b fa (byte_at p 0) (alpha_of p) oa = cb -> 0 <= cb <= 255 ->
  source_over r g b fa p = oa * 2 ^ 24 + cr * 2 ^ 16 + cg * 2 ^ 8 + cb.
Proof.
  intros Hr Hg Hb Hfa Hoa Hne Hcr Hcr' Hcg Hcg' Hcb Hcb'.
  unfold source_over. fold (alpha_of p). rewrite Hoa.
  pose proof (alpha_of_range p) as Hp.
  pose proof (out_alpha_range fa (alpha_of p)) as Hoar. rewrite Hoa in Hoar.
  rewrite !out_channel_low_byte by auto using byte_at_range.
  rewrite Hcr, Hcg, Hcb.
  rewrite !Z.mod_small by lia.
  apply pack_argb_sum; lia.
Qed.

(** X8: source-over on the extreme alphas never wraps a channel. For byte
    colours and an effective alpha [fa] in [1, 255]:
    over a fully transparent pixel the result is the straight colour with
    alpha [fa], [0x(fa)(r)(g)(b)];
    over a fully opaque pixel the result is opaque and each channel is the
    blend [(c * fa + dst_c * (255 - fa)) / 255];
    and an opaque source ([fa = 255]) replaces whatever pixel was there by
    [0xFF(r)(g)(b)]. *)
Theorem source_over_on_extreme_alphas (r g b fa p : Z) :
  0 <= r <= 255 -> 0 <= g <= 255 -> 0 <= b <= 255 -> 1 <= fa <= 255 ->
  (alpha_of p = 0 ->
     source_over r g b fa p = fa * 2 ^ 24 + r * 2 ^ 16 + g * 2 ^ 8 + b)
  /\ (alpha_of p = 255 ->
        source_over r g b fa p
        = 255 * 2 ^ 24
          + (r * fa + byte_at p 16 * (255 - fa)) / 255 * 2 ^ 16
          + (g * fa + byte_at p 8 * (255 - fa)) / 255 * 2 ^ 8
          + (b * fa + byte_at p 0 * (255 - fa)) / 255)
  /\ (fa = 255 ->
        source_over r g b fa p = 255 * 2 ^ 24 + r * 2 ^ 16 + g * 2 ^ 8 + b).
Proof.
  intros Hr Hg Hb Hfa. split; [|split].
  - intros Hp. apply source_over_channels; try lia; rewrite Hp.
    + rewrite out_alpha_exact by lia. replace (0 * (255 - fa)) with 0 by lia.
      rewrite Z.div_0_l by lia. lia.
    + apply spec_channel_on_transparent. lia.
    + apply spec_channel_on_transparent. lia.
    + apply spec_channel_on_transparent. lia.
  - intros Hp.
    pose proof (byte_at_range p 16). pose proof (byte_at_range p 8).
    pose proof (byte_at_range p 0).
    apply source_over_channels; try lia; rewrite ?Hp;
      try (apply spec_channel_on_opaque; lia).
    rewrite out_alpha_exact by lia.
    replace (255 * (255 - fa)) with ((255 - fa) * 255) by lia.
    rewrite Z.div_mul by lia. lia.
  - intros ->.
    pose proof (alpha_of_range p). pose proof (byte_at_range p 16).
    pose proof (byte_at_range p 8). pose proof (byte_at_range p 0).
    apply source_over_channels; try lia;
      try (apply spec_channel_of_opaque_source; lia).
    rewrite out_alpha_exact by lia.
    replace (alpha_of p * (255 - 255)) with 0 by lia.
    rewrite Z.div_0_l by lia. lia.
Qed.

Lemma source_over_on_extreme_alphas_witness :
  source_over 10 20 30 128 0 = 128 * 2 ^ 24 + 10 * 2 ^ 16 + 20 * 2 ^ 8 + 30
  /\ source_over 10 20 30 255 0x80FFFFFF
     = 255 * 2 ^ 24 + 10 * 2 ^ 16 + 20 * 2 ^ 8 + 30.
Proof.
  destruct (source_over_on_extreme_alphas 10 20 30 128 0
              ltac:(lia) ltac:(lia) ltac:(lia) ltac:(lia)) as (Hclear & _ & _).
  destruct (source_over_on_extreme_alphas 10 20 30 255 0x80FFFFFF
              ltac:(lia) ltac:(lia) ltac:(lia) ltac:(lia)) as (_ & _ & Hsolid).
  split; [apply Hclear; reflexivity | apply Hsolid; reflexivity].
Defined.

Lemma source_over_opaque_source r g b p :
  0 <= r <= 255 -> 0 <= g <= 255 -> 0 <= b <= 255 ->
  source_over r g b 255 p = 255 * 2 ^ 24 + r * 2 ^ 16 + g * 2 ^ 8 + b.
Proof.
  intros Hr Hg Hb.
  pose proof (alpha_of_range p). pose proof (byte_at_range p 16).
  pose proof (byte_at_range p 8). pose proof (byte_at_range p 0).
  apply source_over_channels; try lia;
    try (apply spec_channel_of_opaque_source; lia).
  rewrite out_alpha_exact by lia.
  replace (alpha_of p * (255 - 255)) with 0 by lia.
  rewrite Z.div_0_l by lia. lia.
Qed.

Lemma blended_full_coverage img x y p :
  bitmap_covers img -> coverage_full img -> byte_at (Img.color img) 0 = 0 ->
  0 <= x < Img.w img -> 0 <= y < Img.h img ->
  blended img x y p = opaque_color img.
Proof.
  intros Hcov Hfull Ha Hx Hy. unfold blended.
  destruct (read_bitmap_covered img y x Hcov Hx Hy) as (k & Hk & ->).
  rewrite (Hfull k) by (apply list_elem_of_lookup; eauto).
  rewrite Ha. change (Z.of_N (Byte.to_N xff)) with 255.
  change (255 =? 0) with false. cbn iota.
  change (final_alpha_of 255 0) with 255. cbn zeta.
  change (255 =? 0) with false. cbn iota.
  apply source_over_opaque_source; apply byte_at_range.
Qed.

(** X9: an opaque fragment at the end of the chain hides what is below it.
    When the last fragment has coverage 255 everywhere and an opaque tint
    (inverted alpha 0), every canvas pixel it covers ends as its colour
    [0xFF(r)(g)(b)], whatever the canvas and the earlier fragments were. *)
Theorem last_opaque_fragment_hides_the_rest
        (canvas_w canvas_h : Z) (pixels : list Z)
        (pre : ASS_Image_list) (top : Img.t) :
  length pixels = Z.to_nat (canvas_w * canvas_h) ->
  (forall img, img ∈ pre ++ [top] -> bitmap_covers img) ->
  coverage_full top -> byte_at (Img.color top) 0 = 0 ->
  exists pixels',
    blend_ass_image canvas_w canvas_h pixels (pre ++ [top]) = Ok pixels'
    /\ forall X Y, 0 <= X < canvas_w -> 0 <= Y < canvas_h ->
         covers_pixel top X Y = true ->
         pixels' !! Z.to_nat (Y * canvas_w + X) = Some (opaque_color top).
Proof.
  intros Hlen Hcov Hfull Ha.
  destruct (blend_chain_pointwise canvas_w canvas_h pixels (pre ++ [top])
              Hlen Hcov) as (pixels' & Hrun & _ & Hpix).
  exists pixels'. split; [exact Hrun|].
  intros X Y HX HY Hc. rewrite Hpix by assumption.
  pose proof (canvas_index_in_range _ _ _ _ HX HY) as Hi. rewrite <- Hlen in Hi.
  destruct (lookup_lt_is_Some_2 _ _ Hi) as [p ->]. cbn. f_equal.
  unfold blend_chain_at. rewrite fold_left_app. cbn [fold_left].
  unfold blend_one_at. rewrite Hc.
  unfold covers_pixel in Hc. rewrite !andb_true_iff in Hc.
  apply blended_full_coverage; try assumption; try lia.
  apply Hcov, elem_of_app. right. apply list_elem_of_singleton. reflexivity.
Qed.

Lemma last_opaque_fragment_hides_the_rest_witness :
  exists pixels',
    blend_ass_image 2 1 (zero_canvas 2) ([half_red; half_blue] ++ [solid_green])
    = Ok pixels'
    /\ forall X Y, 0 <= X < 2 -> 0 <= Y < 1 ->
         covers_pixel solid_green X Y = true ->
         pixels' !! Z.to_nat (Y * 2 + X) = Some (opaque_color solid_green).
Proof.
  apply (last_opaque_fragment_hides_the_rest 2 1 (zero_canvas 2)
           [half_red; half_blue] solid_green); [reflexivity| | |reflexivity].
  - intros img Himg. apply elem_of_app in Himg as [Himg|Himg].
    + revert img Himg. apply bitmap_covers_chain_of_one_pixel. repeat constructor.
    + apply list_elem_of_singleton in Himg. subst img.
      intros x y Hx Hy. simpl in *. lia.
  - intros c Hc. simpl in Hc.
    repeat (apply elem_of_cons in Hc as [->|Hc]; [reflexivity|]).
    inversion Hc.
Defined.

(** ** Packing and unpacking a pixel *)

(** X10: the pixel layout round-trips. Unpacking with [(p >> k) & 0xFF]
    (lines 99-102) what lines 117-120 packed from four bytes gives the four
    bytes back, and packing the four unpacked channels of a 32-bit pixel
    gives the pixel back. *)
Theorem pack_argb_round_trip (a r g b p : Z) :
  0 <= a <= 255 -> 0 <= r <= 255 -> 0 <= g <= 255 -> 0 <= b <= 255 ->
  0 <= p < 2 ^ 32 ->
  (byte_at (pack_argb a r g b) 24 = a /\ byte_at (pack_argb a r g b) 16 = r
   /\ byte_at (pack_argb a r g b) 8 = g /\ byte_at (pack_argb a r g b) 0 = b)
  /\ pack_argb (byte_at p 24) (byte_at p 16) (byte_at p 8) (byte_at p 0) = p.
Proof.
  intros Ha Hr Hg Hb Hp. split.
  - rewrite !byte_at_mod, pack_argb_sum by lia.
    change (2 ^ 24) with 16777216. change (2 ^ 16) with 65536.
    change (2 ^ 8) with 256. change (2 ^ 0) with 1.
    repeat split; Z.div_mod_to_equations; lia.
  - rewrite pack_argb_sum by apply byte_at_range.
    rewrite !byte_at_mod by lia.
    change (2 ^ 32) with 4294967296 in Hp.
    change (2 ^ 24) with 16777216. change (2 ^ 16) with 65536.
    change (2 ^ 8) with 256. change (2 ^ 0) with 1.
    Z.div_mod_to_equations. lia.
Qed.

Lemma pack_argb_round_trip_witness :
  (byte_at (pack_argb 1 2 3 4) 24 = 1 /\ byte_at (pack_argb 1 2 3 4) 16 = 2
   /\ byte_at (pack_argb 1 2 3 4) 8 = 3 /\ byte_at (pack_argb 1 2 3 4) 0 = 4)
  /\ pack_argb (byte_at 0xBF5500AA 24) (byte_at 0xBF5500AA 16)
               (byte_at 0xBF5500AA 8) (byte_at 0xBF5500AA 0) = 0xBF5500AA.
Proof.
  apply (pack_argb_round_trip 1 2 3 4 0xBF5500AA); lia.
Defined.

(** ** [nativeRenderFrame]: from the chain to the cropped bitmap *)

Lemma compute_bounding_box_edges img_list canvas_w canvas_h l t r b :
  compute_bounding_box img_list canvas_w canvas_h = (l, t, r, b) ->
  0 <= l /\ 0 <= t /\ r <= canvas_w /\ b <= canvas_h.
Proof.
  unfold compute_bounding_box.
  destruct (bbox_loop img_list canvas_w canvas_h) as [[[l0 t0] r0] b0].
  rewrite !Z.gtb_ltb. intros [= <- <- <- <-].
  destruct (Z.ltb_spec l0 0), (Z.ltb_spec t0 0),
    (Z.ltb_spec canvas_w r0), (Z.ltb_spec canvas_h b0); lia.
Qed.

Lemma zero_canvas_lookup canvas_w canvas_h X Y :
  0 <= X < canvas_w -> 0 <= Y < canvas_h ->
  zero_canvas (canvas_w * canvas_h) !! Z.to_nat (Y * canvas_w + X) = Some 0.
Proof.
  intros HX HY. unfold zero_canvas. apply lookup_replicate_2.
  apply canvas_index_in_range; assumption.
Qed.

(** X11: what [nativeRenderFrame] returns. For a context with renderer and
    track and a positive frame size whose pixel count [frame_w * frame_h]
    fits in an [int], a non-empty chain whose bitmaps hold the rows that are
    read, whose fragments of positive size have sums [dst_x + w],
    [dst_y + h] that fit in an [int], and whose bounding box [(l, t, r, b)]
    is not empty, when the frame buffer, the Bitmap (a store of
    [(r - l) * (b - t)] pixels) and its lock are obtained: the method
    returns a bitmap of [(r - l) * (b - t)] pixels, the box lies within the
    frame and is what is written to [outRect], the bitmap pixel [(x, y)] is
    the composite of the fragments over a transparent pixel at frame
    position [(l + x, t + y)], and the composite is zero at every frame
    position outside the box: bitmap and rectangle together carry the whole
    frame. In that run the frame buffer is freed and the pixels are
    unlocked. *)
Theorem nativeRenderFrame_returns_the_cropped_composite
        (ctx : Ctx.t) (env : render_env) (bmp : list Z) (l t r b : Z) :
  Ctx.renderer ctx = true -> Ctx.track ctx = true ->
  0 < Ctx.frame_w ctx -> 0 < Ctx.frame_h ctx ->
  fits_int (Ctx.frame_w ctx * Ctx.frame_h ctx) ->
  rendered env <> [] ->
  (forall img, img ∈ rendered env -> bitmap_covers img) ->
  (forall img, img ∈ rendered env -> positive_size img = true ->
     extent_fits img) ->
  compute_bounding_box (rendered env) (Ctx.frame_w ctx) (Ctx.frame_h ctx)
  = (l, t, r, b) ->
  l < r -> t < b ->
  pixels_ok env = true -> lock_ok env = true ->
  bitmap env = Some bmp -> length bmp = Z.to_nat ((r - l) * (b - t)) ->
  exists out,
    nativeRenderFrame (Some ctx) env
    = Ok (Some out,
          [ass_render_frame; calloc_pixels true; createBitmap true;
           AndroidBitmap_lockPixels true; AndroidBitmap_unlockPixels;
           free_pixels]
          ++ (if outRect env then [SetIntArrayRegion (l, t, r, b)] else []))
    /\ (0 <= l /\ r <= Ctx.frame_w ctx) /\ (0 <= t /\ b <= Ctx.frame_h ctx)
    /\ length out = Z.to_nat ((r - l) * (b - t))
    /\ (forall x y, 0 <= x < r - l -> 0 <= y < b - t ->
          out !! Z.to_nat (y * (r - l) + x)
          = Some (blend_chain_at (rendered env) (l + x) (t + y) 0))
    /\ (forall X Y, 0 <= X < Ctx.frame_w ctx -> 0 <= Y < Ctx.frame_h ctx ->
          in_box (l, t, r, b) X Y = false ->
          blend_chain_at (rendered env) X Y 0 = 0).
Proof.
  intros Hrend Htrack Hw Hh Hcount Hne Hcov Hfit Hbox Hlr Htb Hpix Hlock
         Hbmp Hlen.
  destruct (compute_bounding_box_edges _ _ _ _ _ _ _ Hbox) as (Hl & Ht & Hr & Hb).
  assert (Hzero : length (zero_canvas (Ctx.frame_w ctx * Ctx.frame_h ctx))
                  = Z.to_nat (Ctx.frame_w ctx * Ctx.frame_h ctx))
    by apply length_replicate.
  destruct (blend_chain_pointwise _ _ _ (rendered env) Hzero Hcov)
    as (full & Hfull & Hfull_len & Hfull_pix).
  assert (Hsize : length full = Z.to_nat (Ctx.frame_w ctx * Ctx.frame_h ctx))
    by congruence.
  destruct (crop_loop_spec (Ctx.frame_w ctx) (Ctx.frame_h ctx) l t r b full
              Hsize ltac:(lia) ltac:(lia) bmp Hlen)
    as (out & Hcrop & Hout_len & Hout_pix).
  exists out. split; [|split; [lia|split; [lia|split; [exact Hout_len|split]]]].
  - unfold nativeRenderFrame. rewrite Hrend, Htrack. cbn [negb orb].
    destruct (Z.leb_spec (Ctx.frame_w ctx) 0), (Z.leb_spec (Ctx.frame_h ctx) 0);
      try lia. cbn [orb].
    destruct (rendered env) as [|img rest]; [contradiction|].
    rewrite Hbox. cbn zeta. rewrite (int32_fits _ Hcount).
    destruct (Z.leb_spec (r - l) 0), (Z.leb_spec (b - t) 0); try lia.
    cbn [orb]. rewrite Hpix. cbn [negb orb].
    destruct (Z.ltb_spec (Ctx.frame_w ctx * Ctx.frame_h ctx) 0); [nia|].
    rewrite Hfull. cbn [bind].
    rewrite Hbmp, Hlock. cbn [negb]. rewrite Hcrop. reflexivity.
  - intros x y Hx Hy. rewrite Hout_pix by assumption.
    replace ((t + y) * Ctx.frame_w ctx + l + x)
      with ((t + y) * Ctx.frame_w ctx + (l + x)) by lia.
    rewrite Hfull_pix, zero_canvas_lookup by lia. reflexivity.
  - intros X Y HX HY Hout. apply blend_chain_at_uncovered.
    intros img Himg. destruct (covers_pixel img X Y) eqn:Hc; [|reflexivity].
    pose proof (covered_pixel_in_bounding_box (rendered env)
                  (Ctx.frame_w ctx) (Ctx.frame_h ctx) img X Y Himg
                  (Hfit img Himg (covers_pixel_positive_size img X Y Hc))
                  Hc HX HY) as Hin.
    rewrite Hbox in Hin. congruence.
Qed.

Lemma nativeRenderFrame_returns_the_cropped_composite_witness :
  exists out,
    nativeRenderFrame (Some ready_2x1) grant_all
    = Ok (Some out,
          [ass_render_frame; calloc_pixels true; createBitmap true;
           AndroidBitmap_lockPixels true; AndroidBitmap_unlockPixels;
           free_pixels]
          ++ (if outRect grant_all then [SetIntArrayRegion (1, 0, 2, 1)] else []))
    /\ (0 <= 1 /\ 2 <= Ctx.frame_w ready_2x1)
    /\ (0 <= 0 /\ 1 <= Ctx.frame_h ready_2x1)
    /\ length out = Z.to_nat ((2 - 1) * (1 - 0))
    /\ (forall x y, 0 <= x < 2 - 1 -> 0 <= y < 1 - 0 ->
          out !! Z.to_nat (y * (2 - 1) + x)
          = Some (blend_chain_at (rendered grant_all) (1 + x) (0 + y) 0))
    /\ (forall X Y, 0 <= X < Ctx.frame_w ready_2x1 ->
          0 <= Y < Ctx.frame_h ready_2x1 ->
          in_box (1, 0, 2, 1) X Y = false ->
          blend_chain_at (rendered grant_all) X Y 0 = 0).
Proof.
  apply (nativeRenderFrame_returns_the_cropped_composite
           ready_2x1 grant_all [0] 1 0 2 1);
    try reflexivity; try (simpl; lia); try discriminate.
  - unfold fits_int. simpl. lia.
  - apply bitmap_covers_chain_of_one_pixel. repeat constructor.
  - intros img Himg _. simpl in Himg. extents_fit Himg.
Defined.

(** ** The life of a context *)

Lemma held_after_app r n calls1 calls2 :
  held_after r n (calls1 ++ calls2)
  = match held_after r n calls1 with
    | Some m => held_after r m calls2
    | None => None
    end.
Proof.
  revert n. induction calls1 as [|c calls1 IH]; intros n; cbn [app held_after].
  - reflexivity.
  - destruct (effect c) as [[s [|]]|]; [| |apply IH];
      destruct (resource_eqb r s); try apply IH.
    destruct n; [reflexivity|apply IH].
Qed.

(** [nativeRenderFrame] gives back all it takes, on every path. *)
Lemma nativeRenderFrame_neutral ptr env ret calls r n :
  nativeRenderFrame ptr env = Ok (ret, calls) -> held_after r n calls = Some n.
Proof.
  unfold nativeRenderFrame.
  destruct ptr as [ctx|]; [|intros [= <- <-]; reflexivity].
  destruct (negb (Ctx.renderer ctx) || negb (Ctx.track ctx));
    [intros [= <- <-]; reflexivity|].
  destruct ((Ctx.frame_w ctx <=? 0) || (Ctx.frame_h ctx <=? 0));
    [intros [= <- <-]; reflexivity|].
  destruct (rendered env) as [|img rest]; [intros [= <- <-]; reflexivity|].
  destruct (compute_bounding_box _ _ _) as [[[l t] rr] b].
  cbn zeta.
  destruct ((rr - l <=? 0) || (b - t <=? 0)); [intros [= <- <-]; reflexivity|].
  destruct (negb (pixels_ok env) || (_ <? 0));
    [intros [= <- <-]; destruct r; reflexivity|].
  destruct (blend_ass_image _ _ _ _) as [full|e]; cbn [bind]; [|discriminate].
  destruct (bitmap env) as [bmp|];
    [|intros [= <- <-]; destruct r; reflexivity].
  destruct (negb (lock_ok env));
    [intros [= <- <-]; destruct r; reflexivity|].
  destruct (crop_loop _ _ _ _ _ _) as [st|e]; cbn [bind]; [|discriminate].
  intros [= <- <-]. destruct (outRect env), r; reflexivity.
Qed.

Lemma nativeDestroy_releases ptr r :
  held_after r (held ptr r) (nativeDestroy ptr) = Some 0%nat.
Proof.
  destruct ptr as [[[|] [|] [|] w h]|], r; reflexivity.
Qed.

Lemma nativeInit_account calloc_ok library_ok renderer_ok r :
  held_after r 0 (snd (nativeInit calloc_ok library_ok renderer_ok))
  = Some (held (fst (nativeInit calloc_ok library_ok renderer_ok)) r).
Proof.
  destruct calloc_ok, library_ok, renderer_ok, r; reflexivity.
Qed.

(** Each method whose [fontPath] characters were obtained leaves alive
    exactly what the context stands for. *)
Lemma invoke_account ptr m ptr' calls r :
  path_obtained m = true ->
  invoke ptr m = Ok (ptr', calls) ->
  held_after r (held ptr r) calls = Some (held ptr' r).
Proof.
  intros Hpath.
  destruct m as [w h|c b tr|pok ng nok fok dok|env|change];
    cbn [invoke path_obtained] in *.
  - intros [= Heq]. revert Heq.
    destruct ptr as [[[|] [|] [|] fw fh]|]; cbn; intros [= <- <-];
      destruct r; reflexivity.
  - destruct (nativeLoadTrack ptr c b tr) as [[ret p] cs] eqn:Hload.
    intros [= <- <-]. revert Hload.
    destruct ptr as [[[|] [|] [|] fw fh]|], c, b, tr; cbn;
      intros [= <- <- <-]; destruct r; reflexivity.
  - subst pok. intros [= <- <-].
    destruct ptr as [[[|] [|] [|] fw fh]|], ng, nok, fok, dok, r; reflexivity.
  - destruct (nativeRenderFrame ptr env) as [[ret cs]|e] eqn:Hrender;
      cbn [bind]; [|discriminate].
    intros [= <- <-]. cbn [snd]. eapply nativeRenderFrame_neutral, Hrender.
  - intros [= <- <-].
    destruct ptr as [[[|] [|] [|] fw fh]|]; cbn; destruct r; reflexivity.
Qed.

Lemma session_account ptr ms ptr' calls r :
  forallb path_obtained ms = true ->
  session ptr ms = Ok (ptr', calls) ->
  held_after r (held ptr r) calls = Some (held ptr' r).
Proof.
  revert ptr calls.
  induction ms as [|m ms IH]; intros ptr calls Hpaths; cbn [session].
  - intros [= <- <-]. reflexivity.
  - cbn [forallb] in Hpaths. apply andb_true_iff in Hpaths as [Hpath Hpaths].
    destruct (invoke ptr m) as [[p1 c1]|e] eqn:Hstep; cbn [bind]; [|discriminate].
    cbn [fst snd].
    destruct (session p1 ms) as [[p2 c2]|e] eqn:Hrest; cbn [bind]; [|discriminate].
    intros [= <- <-]. cbn [fst snd].
    rewrite held_after_app, (invoke_account _ _ _ _ r Hpath Hstep).
    apply IH; assumption.
Qed.

(** When the characters of [fontPath] are not obtained, [nativeAddFont]
    still releases them: a JNI string is released while none is alive. *)
Lemma nativeAddFont_releases_unobtained_path ctx name_given name_ok file_ok data_ok :
  Ctx.library ctx = true ->
  held_after RString 0
    (nativeAddFont (Some ctx) false name_given name_ok file_ok data_ok) = None.
Proof.
  intros Hlib. unfold nativeAddFont. rewrite Hlib.
  destruct name_given, name_ok, file_ok, data_ok; reflexivity.
Qed.

(** X12: the life of a context leaks nothing and releases nothing twice,
    as long as every [nativeAddFont] obtains the characters of [fontPath].
    Take any outcomes of [nativeInit], any sequence of calls of the other
    methods on the context it returned, with any outcomes of the external
    calls they make except that [GetStringUTFChars] on [fontPath] succeeds,
    then [nativeDestroy]. Over the whole sequence of external calls no
    object of any kind (context block, library, renderer, track, JNI string,
    byte buffer, file, frame buffer, pixel lock) is released while none is
    alive, after every method exactly the objects the context points to are
    alive, and after [nativeDestroy] none is. The exception is needed: on a
    context with a library, a [nativeAddFont] whose [fontPath] characters
    are not obtained releases a JNI string that was never obtained, whatever
    the other outcomes are. *)
Theorem context_life_is_leak_free
        (calloc_ok library_ok renderer_ok : bool) (ms : list method)
        (ptr : option Ctx.t) (calls : list call) (r : resource) :
  forallb path_obtained ms = true ->
  session (fst (nativeInit calloc_ok library_ok renderer_ok)) ms
  = Ok (ptr, calls) ->
  held_after r 0 (snd (nativeInit calloc_ok library_ok renderer_ok) ++ calls)
  = Some (held ptr r)
  /\ held_after r 0 (snd (nativeInit calloc_ok library_ok renderer_ok)
                     ++ calls ++ nativeDestroy ptr)
     = Some 0%nat
  /\ (forall ctx name_given name_ok file_ok data_ok,
        Ctx.library ctx = true ->
        held_after RString 0
          (nativeAddFont (Some ctx) false name_given name_ok file_ok data_ok)
        = None).
Proof.
  intros Hpaths Hrun.
  assert (Hmid : held_after r 0
                   (snd (nativeInit calloc_ok library_ok renderer_ok) ++ calls)
                 = Some (held ptr r)).
  { rewrite held_after_app, nativeInit_account.
    eapply session_account; [exact Hpaths|exact Hrun]. }
  split; [exact Hmid|]. split.
  - rewrite app_assoc, held_after_app, Hmid. apply nativeDestroy_releases.
  - apply nativeAddFont_releases_unobtained_path.
Qed.

Lemma context_life_is_leak_free_witness :
  held_after RTrack 0 (snd (nativeInit true true true) ++ busy_session_calls)
  = Some (held busy_session_end RTrack)
  /\ held_after RTrack 0 (snd (nativeInit true true true)
                          ++ busy_session_calls ++ nativeDestroy busy_session_end)
     = Some 0%nat.
Proof.
  destruct (context_life_is_leak_free true true true busy_session
              busy_session_end busy_session_calls RTrack)
    as (Hmid & Hend & _); [reflexivity|vm_compute; reflexivity|].
  split; assumption.
Defined.

Lemma session_from_ready tr w h ms ptr calls :
  session (Some (Ctx.Make true true tr w h)) ms = Ok (ptr, calls) ->
  ptr = Some (Ctx.Make true true (last_load tr ms)
                       (fst (last_size (w, h) ms)) (snd (last_size (w, h) ms))).
Proof.
  revert tr w h calls. induction ms as [|m ms IH]; intros tr w h calls;
    cbn [session].
  - intros [= <- <-]. reflexivity.
  - destruct (invoke (Some (Ctx.Make true true tr w h)) m) as [[p1 c1]|e]
      eqn:Hstep; cbn [bind]; [|discriminate].
    cbn [fst snd].
    destruct (session p1 ms) as [[p2 c2]|e] eqn:Hrest; cbn [bind]; [|discriminate].
    intros [= <- <-]. cbn [fst].
    destruct m as [w' h'|c b t|pok ng nok fok dok|env|change];
      cbn [invoke last_load last_size] in *.
    + injection Hstep as <- <-. cbn in Hrest. apply (IH _ _ _ _ Hrest).
    + assert (Hp1 : p1 = Some (Ctx.Make true true (c && b && t) w h)).
      { revert Hstep. destruct tr, c, b, t; cbn; intros [= <- <-]; reflexivity. }
      subst p1. apply (IH _ _ _ _ Hrest).
    + injection Hstep as <- <-. apply (IH _ _ _ _ Hrest).
    + destruct (nativeRenderFrame _ env) as [[ret cs]|e]; cbn [bind] in Hstep;
        [|discriminate].
      injection Hstep as <- <-. apply (IH _ _ _ _ Hrest).
    + injection Hstep as <- <-. apply (IH _ _ _ _ Hrest).
Qed.

Lemma session_from_null ms ptr calls :
  session None ms = Ok (ptr, calls) -> ptr = None /\ calls = [].
Proof.
  revert calls. induction ms as [|m ms IH]; intros calls; cbn [session].
  - intros [= <- <-]. auto.
  - destruct m as [w' h'|c b t|pok ng nok fok dok|env|change]; cbn;
      destruct (session None ms) as [[p2 c2]|e]; cbn; try discriminate;
      intros [= <- <-]; destruct (IH c2 eq_refl) as [-> ->]; auto.
Qed.

(** X13: a context remembers only the last frame size and the last load.
    After [nativeInit] and any sequence of method calls, the context (when
    [nativeInit] succeeded) still has its library and renderer, its frame
    size is that of the last [nativeSetFrameSize] (0x0 when there was none)
    and it has a track exactly when the last [nativeLoadTrack] obtained its
    characters, its buffer and its track: a reload that fails leaves no
    track. Unless that last load succeeded and the last frame size is
    positive in both dimensions, [nativeRenderFrame] returns [NULL] without
    calling libass, and without a track [nativeHasChange] answers false. *)
Theorem context_after_session
        (calloc_ok library_ok renderer_ok : bool) (ms : list method)
        (ptr : option Ctx.t) (calls : list call) :
  session (fst (nativeInit calloc_ok library_ok renderer_ok)) ms
  = Ok (ptr, calls) ->
  ptr = (if calloc_ok && library_ok && renderer_ok
         then Some (Ctx.Make true true (last_load false ms)
                             (fst (last_size (0, 0) ms))
                             (snd (last_size (0, 0) ms)))
         else None)
  /\ (last_load false ms = false \/ fst (last_size (0, 0) ms) <= 0
      \/ snd (last_size (0, 0) ms) <= 0 ->
      forall env, nativeRenderFrame ptr env = Ok (None, []))
  /\ (last_load false ms = false ->
      forall change, nativeHasChange ptr change = (false, [])).
Proof.
  intros Hrun.
  assert (Hptr : ptr = (if calloc_ok && library_ok && renderer_ok
                        then Some (Ctx.Make true true (last_load false ms)
                                            (fst (last_size (0, 0) ms))
                                            (snd (last_size (0, 0) ms)))
                        else None)).
  { destruct calloc_ok, library_ok, renderer_ok; cbn in Hrun |- *;
      try (apply session_from_null in Hrun as [-> _]; reflexivity).
    apply session_from_ready in Hrun. exact Hrun. }
  split; [exact Hptr|]. subst ptr.
  destruct (calloc_ok && library_ok && renderer_ok); [|split; reflexivity].
  split.
  - intros Hnot env. unfold nativeRenderFrame. cbn [Ctx.renderer Ctx.track
      Ctx.frame_w Ctx.frame_h negb orb].
    destruct (last_load false ms); cbn [negb]; [|reflexivity].
    destruct Hnot as [Hl|[Hw|Hh]]; [discriminate| |].
    + destruct (Z.leb_spec (fst (last_size (0, 0) ms)) 0); [reflexivity|lia].
    + destruct (Z.leb_spec (snd (last_size (0, 0) ms)) 0);
        [rewrite orb_true_r; reflexivity|lia].
  - intros Hl change. unfold nativeHasChange. cbn [Ctx.renderer Ctx.track].
    rewrite Hl. reflexivity.
Qed.

Lemma context_after_session_witness :
  busy_session_end
  = Some (Ctx.Make true true (last_load false busy_session)
                   (fst (last_size (0, 0) busy_session))
                   (snd (last_size (0, 0) busy_session)))
  /\ nativeRenderFrame busy_session_end grant_all = Ok (None, []).
Proof.
  destruct (context_after_session true true true busy_session
              busy_session_end busy_session_calls)
    as (Hptr & Hrender & _); [vm_compute; reflexivity|].
  split; [exact Hptr|]. apply Hrender. left. reflexivity.
Defined.

(** ** Effective alpha *)

(** X14: the effective alpha [coverage * (255 - a) / 255] of line 94, for a
    coverage byte and a tint byte: nothing wraps in its 32-bit computation,
    it exceeds neither the coverage nor the tint opacity [255 - a], it is
    the coverage itself under an opaque tint ([a = 0]) and the tint opacity
    at full coverage, and it is zero (the pixel is skipped) exactly when
    [coverage * (255 - a) < 255]. *)
Theorem final_alpha_of_bounds (coverage a : Z) :
  0 <= coverage <= 255 -> 0 <= a <= 255 ->
  final_alpha_of coverage a = Z.quot (coverage * (255 - a)) 255
  /\ final_alpha_of coverage a <= coverage
  /\ final_alpha_of coverage a <= 255 - a
  /\ final_alpha_of coverage 0 = coverage
  /\ final_alpha_of 255 a = 255 - a
  /\ (final_alpha_of coverage a = 0 <-> coverage * (255 - a) < 255).
Proof.
  intros Hc Ha.
  rewrite <- udiv_is_truncating by nia.
  rewrite !final_alpha_of_exact by lia.
  assert (H0 : 0 <= coverage * (255 - a)) by nia.
  split; [reflexivity|]. split; [|split; [|split; [|split]]].
  - apply Z.div_le_upper_bound; nia.
  - apply Z.div_le_upper_bound; nia.
  - replace (coverage * (255 - 0)) with (coverage * 255) by lia.
    apply Z.div_mul. lia.
  - replace (255 * (255 - a)) with ((255 - a) * 255) by lia.
    apply Z.div_mul. lia.
  - split.
    + intros Hz. apply Z.div_small_iff in Hz; lia.
    + intros Hlt. apply Z.div_small. lia.
Qed.

Lemma final_alpha_of_bounds_witness :
  final_alpha_of 128 51 = Z.quot (128 * (255 - 51)) 255
  /\ final_alpha_of 128 51 <= 128.
Proof.
  destruct (final_alpha_of_bounds 128 51 ltac:(lia) ltac:(lia))
    as (Heq & Hle & _).
  split; assumption.
Defined.

(** ** Where the composite is transparent *)

Lemma out_alpha_at_least_source fa da :
  0 <= fa <= 255 -> 0 <= da <= 255 ->
  fa <= out_alpha fa da <= 255.
Proof.
  intros Hfa Hda. rewrite out_alpha_exact by assumption.
  destruct (scaled_alpha_bounds fa da Hfa Hda) as [[_ Hhi] H0]. lia.
Qed.

(** X15: a pixel the compositor writes is never fully transparent. For a
    coverage byte and a tint byte whose effective alpha [fa] is not zero
    (the only case in which lines 98-120 run), the output alpha lies between
    [fa] and 255 whatever the destination pixel is: it is not zero, so the
    quotient by [out_a] of lines 112-114 never divides by zero and the
    [out_a == 0] case of line 109 is never taken. *)
Theorem written_pixel_is_never_transparent (r g b coverage a p : Z) :
  0 <= coverage <= 255 -> 0 <= a <= 255 ->
  final_alpha_of coverage a <> 0 ->
  (1 <= final_alpha_of coverage a
   /\ final_alpha_of coverage a
      <= out_alpha (final_alpha_of coverage a) (alpha_of p) <= 255)
  /\ alpha_of (source_over r g b (final_alpha_of coverage a) p)
     = out_alpha (final_alpha_of coverage a) (alpha_of p)
  /\ (forall c dst_c,
        out_channel c (final_alpha_of coverage a) dst_c (alpha_of p)
                    (out_alpha (final_alpha_of coverage a) (alpha_of p))
        = u8 (channel_quotient c (final_alpha_of coverage a) dst_c (alpha_of p)
                (out_alpha (final_alpha_of coverage a) (alpha_of p)))).
Proof.
  intros Hc Ha Hne.
  pose proof (final_alpha_of_range coverage a Hc Ha) as Hfa.
  pose proof (out_alpha_at_least_source _ _ Hfa (alpha_of_range p)) as Hoa.
  split; [lia|]. split; [apply alpha_of_source_over|].
  intros c dst_c. unfold out_channel.
  destruct (Z.eqb_spec (out_alpha (final_alpha_of coverage a) (alpha_of p)) 0);
    [lia|reflexivity].
Qed.

Lemma written_pixel_is_never_transparent_witness :
  1 <= final_alpha_of 1 0
  /\ final_alpha_of 1 0 <= out_alpha (final_alpha_of 1 0) (alpha_of 0) <= 255.
Proof.
  destruct (written_pixel_is_never_transparent 255 0 0 1 0 0
              ltac:(lia) ltac:(lia) ltac:(vm_compute; discriminate))
    as (Hrange & _).
  exact Hrange.
Defined.

Lemma alpha_of_blend_one_at img X Y p :
  alpha_of p <= alpha_of (blend_one_at img X Y p)
  /\ (contributes img X Y = true -> 1 <= alpha_of (blend_one_at img X Y p))
  /\ (contributes img X Y = false -> blend_one_at img X Y p = p).
Proof.
  unfold blend_one_at, contributes, blended.
  destruct (covers_pixel img X Y); cbn [andb];
    [|split; [lia|split; [discriminate|reflexivity]]].
  destruct (read_bitmap img (Y - Img.dst_y img) (X - Img.dst_x img))
    as [c|e] eqn:Hread; [|split; [lia|split; [discriminate|reflexivity]]].
  apply read_bitmap_range in Hread.
  pose proof (byte_at_range (Img.color img) 0) as Ha.
  pose proof (final_alpha_of_range c _ Hread Ha) as Hfa.
  destruct (Z.eqb_spec c 0) as [->|Hc0].
  { change (final_alpha_of 0 (byte_at (Img.color img) 0))
      with (u32 (0 * u32 (255 - byte_at (Img.color img) 0)) / 255).
    rewrite Z.mul_0_l. cbn.
    split; [lia|split; [discriminate|reflexivity]]. }
  cbn zeta.
  destruct (Z.eqb_spec (final_alpha_of c (byte_at (Img.color img) 0)) 0)
    as [Hz|Hnz]; cbn [negb]; [split; [lia|split; [discriminate|reflexivity]]|].
  split; [apply source_over_alpha_not_lower; lia|].
  split; [|discriminate]. intros _.
  rewrite alpha_of_source_over.
  pose proof (out_alpha_at_least_source _ _ Hfa (alpha_of_range p)). lia.
Qed.

Lemma alpha_of_blend_chain_at img_list X Y p :
  alpha_of p <= alpha_of (blend_chain_at img_list X Y p).
Proof.
  unfold blend_chain_at. revert p.
  induction img_list as [|img l IH]; intros p; cbn [fold_left]; [lia|].
  eapply Z.le_trans; [|apply IH].
  exact (proj1 (alpha_of_blend_one_at img X Y p)).
Qed.

Lemma blend_chain_at_visible img_list X Y p :
  (exists img, img ∈ img_list /\ contributes img X Y = true) ->
  1 <= alpha_of (blend_chain_at img_list X Y p).
Proof.
  unfold blend_chain_at. revert p.
  induction img_list as [|img l IH]; intros p [g [Hin Hg]]; [inversion Hin|].
  cbn [fold_left]. apply elem_of_cons in Hin as [->|Hin].
  - eapply Z.le_trans; [|apply alpha_of_blend_chain_at].
    exact (proj1 (proj2 (alpha_of_blend_one_at img X Y p)) Hg).
  - apply IH. eauto.
Qed.

Lemma blend_chain_at_untouched img_list X Y p :
  (forall img, img ∈ img_list -> contributes img X Y = false) ->
  blend_chain_at img_list X Y p = p.
Proof.
  unfold blend_chain_at. revert p.
  induction img_list as [|img l IH]; intros p Hnone; cbn [fold_left];
    [reflexivity|].
  rewrite (proj2 (proj2 (alpha_of_blend_one_at img X Y p)))
    by (apply Hnone, elem_of_cons; auto).
  apply IH. intros g Hg. apply Hnone, elem_of_cons. auto.
Qed.

(** X16: the composite is transparent exactly where nothing was drawn.
    After [blend_ass_image] on a zeroed canvas (bitmaps holding the rows
    that are read), a canvas pixel on which some fragment of the chain has a
    non-zero effective alpha has alpha at least 1, and a canvas pixel on
    which none has is still zero. *)
Theorem composite_is_zero_where_nothing_is_drawn
        (canvas_w canvas_h : Z) (img_list : ASS_Image_list) :
  (forall img, img ∈ img_list -> bitmap_covers img) ->
  exists pixels',
    blend_ass_image canvas_w canvas_h (zero_canvas (canvas_w * canvas_h))
                    img_list = Ok pixels'
    /\ forall X Y, 0 <= X < canvas_w -> 0 <= Y < canvas_h ->
         exists p,
           pixels' !! Z.to_nat (Y * canvas_w + X) = Some p
           /\ ((exists img, img ∈ img_list /\ contributes img X Y = true) ->
               1 <= alpha_of p)
           /\ ((forall img, img ∈ img_list -> contributes img X Y = false) ->
               p = 0).
Proof.
  intros Hcov.
  destruct (blend_chain_pointwise canvas_w canvas_h
              (zero_canvas (canvas_w * canvas_h)) img_list
              (length_replicate _ _) Hcov) as (pixels' & Hrun & _ & Hpix).
  exists pixels'. split; [exact Hrun|].
  intros X Y HX HY. rewrite Hpix, zero_canvas_lookup by assumption.
  eexists. split; [reflexivity|]. split.
  - apply blend_chain_at_visible.
  - apply blend_chain_at_untouched.
Qed.

Lemma composite_is_zero_where_nothing_is_drawn_witness :
  exists pixels',
    blend_ass_image 2 1 (zero_canvas (2 * 1)) [half_red; clear_tint] = Ok pixels'
    /\ forall X Y, 0 <= X < 2 -> 0 <= Y < 1 ->
         exists p,
           pixels' !! Z.to_nat (Y * 2 + X) = Some p
           /\ ((exists img, img ∈ [half_red; clear_tint]
                            /\ contributes img X Y = true) -> 1 <= alpha_of p)
           /\ ((forall img, img ∈ [half_red; clear_tint] ->
                  contributes img X Y = false) -> p = 0).
Proof.
  apply (composite_is_zero_where_nothing_is_drawn 2 1 [half_red; clear_tint]).
  apply bitmap_covers_chain_of_one_pixel. repeat constructor.
Defined.

(** ** What [nativeRenderFrame] reports *)

Ltac no_such_call H :=
  repeat (apply elem_of_cons in H as [H|H]; [discriminate H|]);
  inversion H.

(** X17: the rectangle reported through [outRect] always comes with a
    bitmap and is a non-empty rectangle of the frame. Whenever
    [nativeRenderFrame] writes a rectangle, it returns a bitmap (never
    [NULL]), [outRect] was given, the rectangle is the bounding box of the
    rendered chain, and [0 <= left < right <= frame_w],
    [0 <= top < bottom <= frame_h]; when it returns [NULL], [outRect] is
    left as it was. *)
Theorem outRect_is_written_only_with_a_bitmap
        (ptr : option Ctx.t) (env : render_env)
        (ret : option (list Z)) (calls : list call) (l t r b : Z) :
  nativeRenderFrame ptr env = Ok (ret, calls) ->
  SetIntArrayRegion (l, t, r, b) ∈ calls ->
  exists ctx out,
    ptr = Some ctx /\ ret = Some out /\ outRect env = true
    /\ compute_bounding_box (rendered env) (Ctx.frame_w ctx) (Ctx.frame_h ctx)
       = (l, t, r, b)
    /\ (0 <= l /\ l < r /\ r <= Ctx.frame_w ctx)
    /\ (0 <= t /\ t < b /\ b <= Ctx.frame_h ctx).
Proof.
  unfold nativeRenderFrame.
  destruct ptr as [ctx|]; [|intros [= <- <-] Hin; inversion Hin].
  destruct (negb (Ctx.renderer ctx) || negb (Ctx.track ctx));
    [intros [= <- <-] Hin; inversion Hin|].
  destruct ((Ctx.frame_w ctx <=? 0) || (Ctx.frame_h ctx <=? 0));
    [intros [= <- <-] Hin; inversion Hin|].
  destruct (rendered env) as [|img rest] eqn:Hchain;
    [intros [= <- <-] Hin; no_such_call Hin|].
  destruct (compute_bounding_box (img :: rest) _ _)
    as [[[l0 t0] r0] b0] eqn:Hbox.
  cbn zeta.
  destruct ((r0 - l0 <=? 0) || (b0 - t0 <=? 0)) eqn:Hempty;
    [intros [= <- <-] Hin; no_such_call Hin|].
  destruct (negb (pixels_ok env) || (_ <? 0));
    [intros [= <- <-] Hin; no_such_call Hin|].
  destruct (blend_ass_image _ _ _ _) as [full|e]; cbn [bind]; [|discriminate].
  destruct (bitmap env) as [bmp|]; [|intros [= <- <-] Hin; no_such_call Hin].
  destruct (negb (lock_ok env)); [intros [= <- <-] Hin; no_such_call Hin|].
  destruct (crop_loop _ _ _ _ _ _) as [st|e]; cbn [bind]; [|discriminate].
  intros [= <- <-] Hin.
  destruct (outRect env); [|cbn in Hin; no_such_call Hin].
  cbn in Hin.
  repeat (apply elem_of_cons in Hin as [Hin|Hin]; [discriminate Hin|]).
  apply list_elem_of_singleton in Hin. injection Hin as -> -> -> ->.
  apply orb_false_iff in Hempty as [Hw Hh].
  destruct (compute_bounding_box_edges _ _ _ _ _ _ _ Hbox) as (? & ? & ? & ?).
  exists ctx, (bmp_pixels st).
  repeat split; try lia; try reflexivity; exact Hbox.
Qed.

Lemma outRect_is_written_only_with_a_bitmap_witness :
  exists ctx out,
    Some ready_2x1 = Some ctx /\ Some [0x80FF0000] = Some out
    /\ outRect grant_all = true
    /\ compute_bounding_box (rendered grant_all) (Ctx.frame_w ctx)
                            (Ctx.frame_h ctx) = (1, 0, 2, 1)
    /\ (0 <= 1 /\ 1 < 2 /\ 2 <= Ctx.frame_w ctx)
    /\ (0 <= 0 /\ 0 < 1 /\ 1 <= Ctx.frame_h ctx).
Proof.
  apply (outRect_is_written_only_with_a_bitmap (Some ready_2x1) grant_all
           (Some [0x80FF0000])
           [ass_render_frame; calloc_pixels true; createBitmap true;
            AndroidBitmap_lockPixels true; AndroidBitmap_unlockPixels;
            free_pixels; SetIntArrayRegion (1, 0, 2, 1)] 1 0 2 1).
  - vm_compute. reflexivity.
  - do 6 (apply elem_of_cons; right). apply elem_of_cons. left. reflexivity.
Defined.
